(** * Recipe API: the serializer write path and the owner-scoped queries

    A shallow embedding of [app/recipe/serializers.py] (the nested
    tag/ingredient reconciliation of [RecipeSerializer]) over an explicit
    entity store, together with the owner-scoped query layer the tests
    exercise.  Tables are lists of rows in insertion order, the
    many-to-many through tables are finite sets of id pairs, Python
    dictionaries are [gmap string value], and every operation is a
    function of the store that either returns a value or raises. *)

From stdpp Require Import gmap strings list fin_maps.

Local Open Scope string_scope.
Local Open Scope list_scope.
Local Open Scope nat_scope.

(** ** Dynamic values, exceptions, results *)

(** The values that occur in request payloads and validated data.  A list
    of nested tag or ingredient dictionaries is kept as the list of their
    names: [TagSerializer] and [IngredientSerializer] have [name] as their
    only writable field ([id] is read-only), so a validated element is the
    one-key dictionary [{"name": n}]. *)
Inductive value :=
  | VNone
  | VStr (s : string)
  | VInt (n : Z)
  | VDecimal (hundredths : Z)
  | VUser (u : nat)
  | VSpecs (names : list string).

#[global] Instance value_eq_dec : EqDecision value.
Proof. solve_decision. Defined.

Inductive exn :=
  | MultipleObjectsReturned
  | IntegrityError
  | TypeError
  | ValidationError
  | NotFound.

Inductive result (A : Type) :=
  | Ok (a : A)
  | Raise (e : exn).
Arguments Ok {A} a.
Arguments Raise {A} e.

(** ** The entity store *)

(** The two nested relations of a recipe. *)
Inductive kind := KTag | KIngredient.

#[global] Instance kind_eq_dec : EqDecision kind.
Proof. solve_decision. Defined.

(** Modelled from the spec: [core/models.py] is not among the sources.
    A Tag is [{id, owner_ref, name}] and an Ingredient has the same shape,
    so one record serves both and the [kind] says which table a row is in. *)
Module Row.
Record t := mk { id : nat; user : nat; name : string }.
End Row.

(** Modelled from the spec: [core/models.py] is not among the sources.
    A Recipe is [{id, owner_ref, title, time_minutes:int, price:decimal,
    link:string?, description:string?, image:blob-ref?}]; its [tags] and
    [ingredients] live in the through tables of the store. *)
Module Recipe.
Record t := mk {
  id : nat;
  user : nat;
  title : string;
  time_minutes : Z;
  price : Z;
  link : option string;
  description : option string;
  image : option string
}.
End Recipe.

#[global] Instance row_eq_dec : EqDecision Row.t.
Proof. solve_decision. Defined.

#[global] Instance recipe_eq_dec : EqDecision Recipe.t.
Proof. solve_decision. Defined.

(** A Tag or Ingredient table: its rows in insertion order, the through
    table [(recipe id, row id)] of its many-to-many relation with Recipe,
    and the next value of its primary-key sequence. *)
Record Table := mkTable {
  rows : list Row.t;
  links : gset (nat * nat);
  next_id : nat
}.

Record Store := mkStore {
  Tag_objects : Table;
  Ingredient_objects : Table;
  Recipe_objects : list Recipe.t;
  next_recipe_id : nat
}.

Definition empty_table : Table := mkTable [] ∅ 1.
Definition empty_store : Store := mkStore empty_table empty_table [] 1.

Definition table (k : kind) (st : Store) : Table :=
  match k with
  | KTag => Tag_objects st
  | KIngredient => Ingredient_objects st
  end.

Definition set_table (k : kind) (T : Table) (st : Store) : Store :=
  match k with
  | KTag => mkStore T (Ingredient_objects st) (Recipe_objects st) (next_recipe_id st)
  | KIngredient => mkStore (Tag_objects st) T (Recipe_objects st) (next_recipe_id st)
  end.

Definition set_recipes (rs : list Recipe.t) (n : nat) (st : Store) : Store :=
  mkStore (Tag_objects st) (Ingredient_objects st) rs n.

(** ** Operations on the store: return or raise, with the store threaded *)

Definition M (A : Type) : Type := Store → result A * Store.

Definition ret {A} (a : A) : M A := λ st, (Ok a, st).

Definition raise {A} (e : exn) : M A := λ st, (Raise e, st).

Definition bind {A B} (m : M A) (f : A → M B) : M B := λ st,
  match m st with
  | (Ok a, st') => f a st'
  | (Raise e, st') => (Raise e, st')
  end.

Notation "'do' x <- m ; k" := (bind m (λ x, k))
  (at level 10, x name, m at level 99, k at level 200).
Notation "'do' ' p <- m ; k" := (bind m (λ x, match x with p => k end))
  (at level 10, p pattern, m at level 99, k at level 200).
Notation "m ;; k" := (bind m (λ _, k))
  (at level 100, k at level 200, right associativity).

(** [for x in l: body(x)]: an exception ends the loop. *)
Fixpoint for_each {A} (l : list A) (body : A → M unit) : M unit :=
  match l with
  | [] => ret tt
  | x :: l' => body x ;; for_each l' body
  end.

(** ** The ORM calls the serializer makes *)

(** [Model.objects.filter(user=u, name=n)]. *)
Definition matching (u : nat) (n : string) (l : list Row.t) : list Row.t :=
  filter (λ r, Row.user r = u ∧ Row.name r = n) l.

(** [Model.objects.get_or_create(user=u, name=n)]: the single matching row
    if there is one, a new row if there is none, and
    [MultipleObjectsReturned] if several rows match. *)
Definition get_or_create (k : kind) (u : nat) (n : string) : M (Row.t * bool) := λ st,
  let T := table k st in
  match matching u n (rows T) with
  | [] =>
      let r := Row.mk (next_id T) u n in
      (Ok (r, true), set_table k (mkTable (rows T ++ [r]) (links T) (S (next_id T))) st)
  | [r] => (Ok (r, false), st)
  | _ :: _ :: _ => (Raise MultipleObjectsReturned, st)
  end.

(** [instance.tags.add(obj)]: a row of the through table; adding a pair
    that is already there changes nothing. *)
Definition add (k : kind) (recipe_id obj_id : nat) : M unit := λ st,
  let T := table k st in
  (Ok tt, set_table k (mkTable (rows T) ({[ (recipe_id, obj_id) ]} ∪ links T) (next_id T)) st).

(** [instance.tags.clear()]: drops the recipe's rows of the through table. *)
Definition clear (k : kind) (recipe_id : nat) : M unit := λ st,
  let T := table k st in
  (Ok tt, set_table k (mkTable (rows T) (filter (λ p, p.1 ≠ recipe_id) (links T)) (next_id T)) st).

(** [instance.tags.all()]: the rows linked to the recipe, in table order. *)
Definition related (k : kind) (st : Store) (recipe_id : nat) : list Row.t :=
  filter (λ r, (recipe_id, Row.id r) ∈ links (table k st)) (rows (table k st)).

Definition recipe_columns : gset string :=
  {[ "user"; "title"; "time_minutes"; "price"; "link"; "description"; "image" ]}.

Definition opt_str (o : option value) : option string :=
  match o with
  | Some (VStr s) => Some s
  | _ => None
  end.

(** [Recipe.objects.create] applied to keyword arguments: a new row under
    the next primary key.  An unknown keyword is a [TypeError].  The model
    declaration is not among the sources: the columns the spec gives
    without a question mark are taken as required, and a row that lacks
    one, or has a value of another type there, is refused. *)
Definition Recipe_objects_create (kwargs : gmap string value) : M Recipe.t := λ st,
  if decide (dom kwargs ⊆ recipe_columns) then
    match kwargs !! "user", kwargs !! "title", kwargs !! "time_minutes", kwargs !! "price" with
    | Some (VUser u), Some (VStr t), Some (VInt m), Some (VDecimal p) =>
        let r := Recipe.mk (next_recipe_id st) u t m p
                   (opt_str (kwargs !! "link"))
                   (opt_str (kwargs !! "description"))
                   (opt_str (kwargs !! "image")) in
        (Ok r, set_recipes (Recipe_objects st ++ [r]) (S (next_recipe_id st)) st)
    | _, _, _, _ => (Raise IntegrityError, st)
    end
  else (Raise TypeError, st).

(** [instance.save()]: writes the row under the instance's primary key,
    inserting it when no such row exists.  The database is taken to accept
    the row: a value outside the range of its column, which the database
    refuses with an exception, is not represented. *)
Definition save (instance : Recipe.t) : M unit := λ st,
  let rs := Recipe_objects st in
  let rs' :=
    if decide (Recipe.id instance ∈ Recipe.id <$> rs)
    then (λ r, if decide (Recipe.id r = Recipe.id instance) then instance else r) <$> rs
    else rs ++ [instance] in
  (Ok tt, set_recipes rs' (next_recipe_id st) st).

(** [setattr(instance, attr, value)] on a Recipe: assigns the column of
    that name.  The primary key is read-only in every serializer of the
    module and is not assignable here; an attribute that is no column, or
    a value that does not fit the column, leaves the row as it is. *)
Definition setattr (instance : Recipe.t) (attr : string) (v : value) : Recipe.t :=
  let '(Recipe.mk i u t m p l d g) := instance in
  match v with
  | VUser u' =>
      if decide (attr = "user") then Recipe.mk i u' t m p l d g else instance
  | VInt m' =>
      if decide (attr = "time_minutes") then Recipe.mk i u t m' p l d g else instance
  | VDecimal p' =>
      if decide (attr = "price") then Recipe.mk i u t m p' l d g else instance
  | VStr s =>
      if decide (attr = "title") then Recipe.mk i u s m p l d g
      else if decide (attr = "link") then Recipe.mk i u t m p (Some s) d g
      else if decide (attr = "description") then Recipe.mk i u t m p l (Some s) g
      else if decide (attr = "image") then Recipe.mk i u t m p l d (Some s)
      else instance
  | VNone =>
      if decide (attr = "link") then Recipe.mk i u t m p None d g
      else if decide (attr = "description") then Recipe.mk i u t m p l None g
      else if decide (attr = "image") then Recipe.mk i u t m p l d None
      else instance
  | VSpecs _ => instance
  end.

Definition opt_value (o : option string) : value :=
  match o with
  | Some s => VStr s
  | None => VNone
  end.

(** [getattr(instance, attr)] for the columns [setattr] assigns. *)
Definition getattr (instance : Recipe.t) (attr : string) : option value :=
  if decide (attr = "user") then Some (VUser (Recipe.user instance))
  else if decide (attr = "title") then Some (VStr (Recipe.title instance))
  else if decide (attr = "time_minutes") then Some (VInt (Recipe.time_minutes instance))
  else if decide (attr = "price") then Some (VDecimal (Recipe.price instance))
  else if decide (attr = "link") then Some (opt_value (Recipe.link instance))
  else if decide (attr = "description") then Some (opt_value (Recipe.description instance))
  else if decide (attr = "image") then Some (opt_value (Recipe.image instance))
  else None.

(** Whether a value fits the column of that name. *)
Definition fits (attr : string) (v : value) : bool :=
  match v with
  | VUser _ => bool_decide (attr = "user")
  | VInt _ => bool_decide (attr = "time_minutes")
  | VDecimal _ => bool_decide (attr = "price")
  | VStr _ => bool_decide (attr ∈ ["title"; "link"; "description"; "image"])
  | VNone => bool_decide (attr ∈ ["link"; "description"; "image"])
  | VSpecs _ => false
  end.

(** ** RecipeSerializer *)

(** [d.pop(key, default)]: the value and the dictionary without the key. *)
Definition pop (key : string) (dflt : value) (d : gmap string value)
  : value * gmap string value :=
  (default dflt (d !! key), delete key d).

(** [for x in v] over a dynamic value: the elements of a list; nothing for
    the empty string; a non-empty string yields characters, which are no
    keyword mapping, and the other values are not iterable. *)
Definition for_in (v : value) (body : string → M unit) : M unit :=
  match v with
  | VSpecs names => for_each names body
  | VStr "" => ret tt
  | _ => raise TypeError
  end.

(** The one body of [_get_or_create_tags] and [_get_or_create_ingredients]
    (lines 50-56 and 58-66), which differ in the model they address. *)
Definition get_or_create_related (k : kind) (auth_user : nat)
    (instance : Recipe.t) (specs : value) : M unit :=
  for_in specs (λ name,
    do '(obj, created) <- get_or_create k auth_user name;
    add k (Recipe.id instance) (Row.id obj)).

Definition _get_or_create_tags := get_or_create_related KTag.

Definition _get_or_create_ingredients := get_or_create_related KIngredient.

(** [RecipeSerializer.create] (lines 68-76).  [auth_user] is
    [self.context["request"].user]. *)
Definition create (auth_user : nat) (validate_data : gmap string value) : M Recipe.t :=
  let '(tags, validate_data) := pop "tags" (VSpecs []) validate_data in
  let '(ingredients, validate_data) := pop "ingredients" (VSpecs []) validate_data in
  do recipe <- Recipe_objects_create validate_data;
  _get_or_create_tags auth_user recipe tags;;
  _get_or_create_ingredients auth_user recipe ingredients;;
  ret recipe.

(** [for attr, value in validate_data.items(): setattr(instance, attr, value)]. *)
Definition set_attrs (instance : Recipe.t) (validate_data : gmap string value) : Recipe.t :=
  map_fold (λ attr v acc, setattr acc attr v) instance validate_data.

Definition is_not_None (v : value) : bool :=
  match v with
  | VNone => false
  | _ => true
  end.

(** [RecipeSerializer.update] (lines 78-95). *)
Definition update (auth_user : nat) (instance : Recipe.t)
    (validate_data : gmap string value) : M Recipe.t :=
  let '(tags, validate_data) := pop "tags" VNone validate_data in
  let '(ingredients, validate_data) := pop "ingredients" VNone validate_data in
  (if is_not_None ingredients then
     clear KIngredient (Recipe.id instance);;
     _get_or_create_ingredients auth_user instance ingredients
   else ret tt);;
  (if is_not_None tags then
     clear KTag (Recipe.id instance);;
     _get_or_create_tags auth_user instance tags
   else ret tt);;
  let instance := set_attrs instance validate_data in
  save instance;;
  ret instance.

(** ** Validation: which keys of a payload reach [create] and [update] *)

(** [RecipeSerializer.Meta] (lines 37-48). *)
Definition Meta_fields : list string :=
  ["id"; "title"; "time_minutes"; "price"; "link"; "tags"; "ingredients"].

Definition Meta_read_only_fields : list string := ["id"].

(** [RecipeDetailSerializer.Meta] (lines 101-102). *)
Definition Detail_Meta_fields : list string := Meta_fields ++ ["description"].

(** Whether the serializer field of that name accepts the value.  Values
    are taken in the type of their field: the numerals in a string that a
    number field parses, and the blank string a field may refuse, are not
    represented. *)
Definition field_accepts (field : string) (v : value) : bool :=
  match v with
  | VStr _ => bool_decide (field ∈ ["title"; "link"; "description"])
  | VInt _ => bool_decide (field = "time_minutes")
  | VDecimal _ => bool_decide (field = "price")
  | VSpecs _ => bool_decide (field ∈ ["tags"; "ingredients"])
  | VNone | VUser _ => false
  end.

(** The validated data of a serializer with the given [Meta.fields]: the
    entries of the payload under a writable field (a declared field that
    is not read-only); every other key of the payload is dropped.  A value
    its field does not accept is a [ValidationError].  An accepted value is
    kept as it is given (the trimming of a string is not represented), and
    no entry is asked for: this is the validation of a partial serializer,
    [is_valid] adds the required fields of a full one. *)
Definition to_internal_value (fields : list string) (data : gmap string value)
  : result (gmap string value) :=
  let writable := filter (λ f, f ∉ Meta_read_only_fields) fields in
  let validated := filter (λ kv, kv.1 ∈ writable) data in
  if decide (map_Forall (λ f v, field_accepts f v = true) validated)
  then Ok validated
  else Raise ValidationError.

(** [serializer.is_valid(raise_exception=True); serializer.save()] on an
    existing instance, for a partial serializer (PATCH): validation, then
    [update]. *)
Definition save_existing (fields : list string) (auth_user : nat)
    (instance : Recipe.t) (data : gmap string value) : M Recipe.t :=
  match to_internal_value fields data with
  | Ok validated => update auth_user instance validated
  | Raise e => raise e
  end.

(** [serializer.save(user=request.user)] on a new instance: validation,
    then [create] with the owner attached. *)
Definition save_new (fields : list string) (auth_user : nat)
    (data : gmap string value) : M Recipe.t :=
  match to_internal_value fields data with
  | Ok validated => create auth_user (<["user" := VUser auth_user]> validated)
  | Raise e => raise e
  end.

(** ** The owner-scoped query layer *)

Inductive entity_kind := EKRecipe | EKNamed (k : kind).

Inductive entity :=
  | ERecipe (r : Recipe.t)
  | ENamed (k : kind) (r : Row.t).

#[global] Instance entity_eq_dec : EqDecision entity.
Proof. solve_decision. Defined.

Definition entity_id (e : entity) : nat :=
  match e with
  | ERecipe r => Recipe.id r
  | ENamed _ r => Row.id r
  end.

Definition entity_owner (e : entity) : nat :=
  match e with
  | ERecipe r => Recipe.user r
  | ENamed _ r => Row.user r
  end.

Definition entities (ek : entity_kind) (st : Store) : list entity :=
  match ek with
  | EKRecipe => ERecipe <$> Recipe_objects st
  | EKNamed k => ENamed k <$> rows (table k st)
  end.

(** Modelled from the spec: [recipe/views.py] is not among the sources.
    [get_owned(entity_kind, owner, id)] returns the entity if it exists and
    its owner is [owner], and signals NotFound otherwise. *)
Definition get_owned (ek : entity_kind) (owner id : nat) : M entity := λ st,
  match filter (λ e, entity_id e = id ∧ entity_owner e = owner) (entities ek st) with
  | e :: _ => (Ok e, st)
  | [] => (Raise NotFound, st)
  end.

(** The recipes a Tag or Ingredient row is associated with. *)
Definition assigned_to (k : kind) (st : Store) (r : Row.t) : list Recipe.t :=
  filter (λ rc, (Recipe.id rc, Row.id r) ∈ links (table k st)) (Recipe_objects st).

(** Modelled from the spec: [recipe/views.py] is not among the sources.
    [list(entity_kind, owner, assigned_only)] returns the entities of the
    kind owned by [owner]; with [assigned_only] a Tag or Ingredient row is
    joined with the recipes it is associated with (one copy per recipe,
    recipes of any owner) and the result is de-duplicated.  The order is
    implementation-defined: [order_by] stands for it. *)
Definition list_entities (order_by : list entity → list entity)
    (ek : entity_kind) (owner : nat) (assigned_only : bool) (st : Store) : list entity :=
  order_by
    match ek with
    | EKRecipe => ERecipe <$> filter (λ r, Recipe.user r = owner) (Recipe_objects st)
    | EKNamed k =>
        let owned := filter (λ r, Row.user r = owner) (rows (table k st)) in
        ENamed k <$>
          (if assigned_only
           then remove_dups (owned ≫= λ r, (λ _, r) <$> assigned_to k st r)
           else owned)
    end.

(** Modelled from the spec: [recipe/views.py] is not among the sources.
    [delete(kind, id)] of the Entity Store: the row goes, and with it the
    associations it takes part in (recipes keep existing when a tag goes). *)
Definition delete_entity (ek : entity_kind) (id : nat) (st : Store) : Store :=
  match ek with
  | EKRecipe =>
      let unlink T := mkTable (rows T) (filter (λ p, p.1 ≠ id) (links T)) (next_id T) in
      mkStore (unlink (Tag_objects st)) (unlink (Ingredient_objects st))
        (filter (λ r, Recipe.id r ≠ id) (Recipe_objects st)) (next_recipe_id st)
  | EKNamed k =>
      let T := table k st in
      set_table k (mkTable (filter (λ r, Row.id r ≠ id) (rows T))
                     (filter (λ p, p.2 ≠ id) (links T)) (next_id T)) st
  end.

(** A Tag or Ingredient is renamed in place (its serializer has [name] as
    only writable field). *)
Definition rename_entity (k : kind) (id : nat) (name : string) (st : Store) : Store :=
  let T := table k st in
  set_table k
    (mkTable ((λ r, if decide (Row.id r = id) then Row.mk id (Row.user r) name else r) <$> rows T)
       (links T) (next_id T)) st.

(** The requests of an authenticated owner. *)
Inductive request :=
  | List (ek : entity_kind) (owner : nat) (assigned_only : bool)
  | Retrieve (ek : entity_kind) (owner id : nat)
  | Destroy (ek : entity_kind) (owner id : nat)
  | UpdateRecipe (owner id : nat) (data : gmap string value)
  | UpdateNamed (k : kind) (owner id : nat) (name : string)
  | CreateRecipe (owner : nat) (data : gmap string value).

Inductive response :=
  | Listing (l : list entity)
  | Detail (e : entity)
  | NoContent.

(** Modelled from the spec: [recipe/views.py] is not among the sources.
    Every request that names an entity by id goes through [get_owned]
    before anything else happens; recipe writes go through the detail
    serializer. *)
Definition handle (order_by : list entity → list entity) (req : request) : M response :=
  match req with
  | List ek owner assigned_only =>
      λ st, (Ok (Listing (list_entities order_by ek owner assigned_only st)), st)
  | Retrieve ek owner id =>
      do e <- get_owned ek owner id;
      ret (Detail e)
  | Destroy ek owner id =>
      do e <- get_owned ek owner id;
      λ st, (Ok NoContent, delete_entity ek id st)
  | UpdateRecipe owner id data =>
      do e <- get_owned EKRecipe owner id;
      match e with
      | ERecipe instance =>
          do r <- save_existing Detail_Meta_fields owner instance data;
          ret (Detail (ERecipe r))
      | ENamed _ _ => raise TypeError
      end
  | UpdateNamed k owner id name =>
      do e <- get_owned (EKNamed k) owner id;
      λ st, let st' := rename_entity k id name st in
            (Ok (Detail (ENamed k (Row.mk id owner name))), st')
  | CreateRecipe owner data =>
      do r <- save_new Detail_Meta_fields owner data;
      ret (Detail (ERecipe r))
  end.

(** The requests that only read. *)
Definition is_read (req : request) : bool :=
  match req with
  | List _ _ _ | Retrieve _ _ _ => true
  | _ => false
  end.

(** The entity a request names by id, and on whose behalf. *)
Definition names_entity (req : request) : option (entity_kind * nat * nat) :=
  match req with
  | Retrieve ek owner id | Destroy ek owner id => Some (ek, owner, id)
  | UpdateRecipe owner id _ => Some (EKRecipe, owner, id)
  | UpdateNamed k owner id _ => Some (EKNamed k, owner, id)
  | List _ _ _ | CreateRecipe _ _ => None
  end.

(** A sequence of requests, each on the store the previous one left;
    a request that raises leaves what it had written. *)
Fixpoint serve (order_by : list entity → list entity) (reqs : list request)
    (st : Store) : Store :=
  match reqs with
  | [] => st
  | req :: reqs' => serve order_by reqs' (handle order_by req st).2
  end.

(** ** Well-formed stores *)

(** Primary keys are unique and below the next value of their sequence. *)
Definition table_wf (T : Table) : Prop :=
  NoDup (Row.id <$> rows T) ∧ Forall (λ r, Row.id r < next_id T) (rows T).

(** Both tables are well-formed, so is the recipe table, and no
    association mentions a recipe key that was never handed out. *)
Definition store_wf (st : Store) : Prop :=
  table_wf (Tag_objects st) ∧
  table_wf (Ingredient_objects st) ∧
  NoDup (Recipe.id <$> Recipe_objects st) ∧
  Forall (λ r, Recipe.id r < next_recipe_id st) (Recipe_objects st) ∧
  set_Forall (λ p, p.1 < next_recipe_id st) (links (Tag_objects st)) ∧
  set_Forall (λ p, p.1 < next_recipe_id st) (links (Ingredient_objects st)).

#[global] Instance table_wf_dec T : Decision (table_wf T).
Proof. unfold table_wf. apply _. Defined.

#[global] Instance store_wf_dec st : Decision (store_wf st).
Proof. unfold store_wf. apply _. Defined.

(** The names a validated value lists. *)
Definition spec_names (v : value) : list string :=
  match v with
  | VSpecs names => names
  | _ => []
  end.

(** ** Names for the parts of [create] and [update] *)

(** The body of the loop, as [get_or_create_related] passes it to [for_in]. *)
Definition loop_body (k : kind) (auth_user : nat) (instance : Recipe.t)
  : string → M unit :=
  λ name,
    do '(obj, created) <- get_or_create k auth_user name;
    add k (Recipe.id instance) (Row.id obj).

(** The key of validated data under which a relation is given. *)
Definition relation_key (k : kind) : string :=
  match k with
  | KTag => "tags"
  | KIngredient => "ingredients"
  end.

(** One of the two guarded blocks of [update] (lines 83-85 and 87-89). *)
Definition relink (k : kind) (auth_user : nat) (instance : Recipe.t)
    (specs : value) : M unit :=
  if is_not_None specs then
    clear k (Recipe.id instance);;
    get_or_create_related k auth_user instance specs
  else ret tt.

(** A computation that, returning or raising, leaves the recipe table as
    it found it. *)
Definition keeps_recipes {A} (m : M A) : Prop :=
  ∀ st, Recipe_objects (m st).2 = Recipe_objects st.

(** A computation started in a store satisfying [P] ends in a store
    satisfying [Q] of its value when it returns and [E] when it raises. *)
Definition hoare {A} (P : Store → Prop) (m : M A)
    (Q : A → Store → Prop) (E : Store → Prop) : Prop :=
  ∀ st, P st →
    match m st with
    | (Ok a, st') => Q a st'
    | (Raise _, st') => E st'
    end.

(** The recipe key is one the sequence has handed out. *)
Definition wf_with (recipe_id : nat) (st : Store) : Prop :=
  store_wf st ∧ recipe_id < next_recipe_id st.

(** ** Claims stated as predicates *)

(** C3 as stated: the call returns one of the rows that were there,
    uncreated, and the number of rows under the key is as before. *)
Definition returns_existing_row (k : kind) (u : nat) (n : string) (st : Store) : Prop :=
  ∃ r st',
    get_or_create k u n st = (Ok (r, false), st') ∧
    r ∈ matching u n (rows (table k st)) ∧
    length (matching u n (rows (table k st'))) =
      length (matching u n (rows (table k st))).

(** ** Sample stores and payloads *)

(** Two users.  User 1 owns the tags Breakfast and Indian, the ingredient
    Salt and two recipes, both tagged Breakfast, the first salted; user 2
    owns a tag Indian of their own and one recipe. *)
Definition sample_recipe : Recipe.t :=
  Recipe.mk 1 1 "Curry" 22 525 (Some "http://example.com/recipe.pdf")
    (Some "Sample description") None.

Definition sample_store : Store :=
  mkStore
    (mkTable [Row.mk 1 1 "Breakfast"; Row.mk 2 1 "Indian"; Row.mk 3 2 "Indian"]
       {[ (1, 1); (2, 1) ]} 4)
    (mkTable [Row.mk 1 1 "Salt"] {[ (1, 1) ]} 2)
    [sample_recipe;
     Recipe.mk 2 1 "Toast" 5 150 None None None;
     Recipe.mk 3 2 "Soup" 40 300 None None None]
    4.

(** A store in which user 1 has two Tag rows named Indian, as two direct
    creations or a rename leave it. *)
Definition duplicate_store : Store :=
  mkStore
    (mkTable [Row.mk 1 1 "Indian"; Row.mk 2 1 "Indian"] ∅ 3)
    empty_table
    [Recipe.mk 1 1 "Curry" 22 525 None None None]
    2.

(** The validated data of [test_create_recipe_with_new_tags], with a
    repeated name. *)
Definition sample_validated : gmap string value :=
  <["user" := VUser 1]>
    (<["title" := VStr "Thai Prawn Curry"]>
       (<["time_minutes" := VInt 30]>
          (<["price" := VDecimal 420]>
             (<["tags" := VSpecs ["Thai"; "Dinner"; "Thai"]]> ∅)))).

(** Rows of the two tables are only ever appended, and by the requesting
    user. *)
Definition rows_appended (u : nat) (st0 st : Store) : Prop :=
  ∀ k, ∃ new,
    rows (table k st) = rows (table k st0) ++ new ∧
    Forall (λ r, Row.user r = u) new.

(** The rows and the associations of every recipe but [rid] are those of
    [st0]. *)
Definition others_kept (rid : nat) (st0 st : Store) : Prop :=
  (∀ k p, p.1 ≠ rid → (p ∈ links (table k st) ↔ p ∈ links (table k st0))) ∧
  (∀ r, Recipe.id r ≠ rid → (r ∈ Recipe_objects st ↔ r ∈ Recipe_objects st0)).

(** A relation is given as a list of names or not at all. *)
Definition typed_relation (v : value) : Prop :=
  v = VNone ∨ ∃ names, v = VSpecs names.



(** Modelled from the spec: the model declaration is not among the
    sources.  The columns of a recipe a client has to supply are those the
    spec gives without a question mark; the nested "tags" and
    "ingredients" are declared with [required=False] (lines 34-35). *)
Definition required_columns : list string := ["title"; "time_minutes"; "price"].

(** [serializer.is_valid(raise_exception=True)].  A partial serializer
    (PATCH) validates the entries the payload gives; a full one (PUT)
    also refuses a payload that lacks a required field it declares. *)
Definition is_valid (partial : bool) (fields : list string)
    (data : gmap string value) : result (gmap string value) :=
  if partial then to_internal_value fields data
  else if decide (Forall (λ f, f ∈ fields → is_Some (data !! f)) required_columns)
  then to_internal_value fields data
  else Raise ValidationError.

(** An update request on an existing instance: validation, partial or
    full, then [update]. *)
Definition perform_update (partial : bool) (fields : list string) (auth_user : nat)
    (instance : Recipe.t) (data : gmap string value) : M Recipe.t :=
  match is_valid partial fields data with
  | Ok validated => update auth_user instance validated
  | Raise e => raise e
  end.

(** * Properties *)

(** ** The sample stores are well-formed *)

Lemma sample_store_wf : store_wf sample_store.
Proof. apply (bool_decide_unpack _). vm_compute. exact I. Defined.

Lemma duplicate_store_wf : store_wf duplicate_store.
Proof. apply (bool_decide_unpack _). vm_compute. exact I. Defined.

Lemma store_wf_table k st : store_wf st → table_wf (table k st).
Proof. intros (? & ? & _). by destruct k. Qed.

Lemma store_wf_links k st p :
  store_wf st → p ∈ links (table k st) → p.1 < next_recipe_id st.
Proof. intros (_ & _ & _ & _ & Ht & Hi). destruct k; [apply Ht | apply Hi]. Qed.

(** ** The store accessors *)

Lemma table_set_table_eq k T st : table k (set_table k T st) = T.
Proof. by destruct k. Qed.

Lemma table_set_table_ne k k' T st : k ≠ k' → table k' (set_table k T st) = table k' st.
Proof. by destruct k, k'. Qed.

Lemma Recipe_objects_set_table k T st :
  Recipe_objects (set_table k T st) = Recipe_objects st.
Proof. by destruct k. Qed.

Lemma next_recipe_id_set_table k T st :
  next_recipe_id (set_table k T st) = next_recipe_id st.
Proof. by destruct k. Qed.

Lemma set_table_table k st : set_table k (table k st) st = st.
Proof. by destruct k, st. Qed.

Lemma set_table_set_table k T T' st :
  set_table k T (set_table k T' st) = set_table k T st.
Proof. by destruct k. Qed.

Lemma table_set_recipes k rs n st : table k (set_recipes rs n st) = table k st.
Proof. by destruct k. Qed.

Lemma store_eq st st' :
  Tag_objects st = Tag_objects st' →
  Ingredient_objects st = Ingredient_objects st' →
  Recipe_objects st = Recipe_objects st' →
  next_recipe_id st = next_recipe_id st' →
  st = st'.
Proof. destruct st, st'; simpl; congruence. Qed.

Lemma table_eq T T' :
  rows T = rows T' → links T = links T' → next_id T = next_id T' → T = T'.
Proof. destruct T, T'; simpl; congruence. Qed.

(** ** Sequencing *)

Lemma bind_Ok {A B} (m : M A) (f : A → M B) st b st2 :
  bind m f st = (Ok b, st2) ↔ ∃ a st1, m st = (Ok a, st1) ∧ f a st1 = (Ok b, st2).
Proof.
  unfold bind. split.
  - destruct (m st) as [[a|e] st1]; [eauto | discriminate].
  - intros (a & st1 & -> & Hf). done.
Qed.

Lemma bind_run_Ok {A B} (m : M A) (f : A → M B) st a st1 :
  m st = (Ok a, st1) → bind m f st = f a st1.
Proof. unfold bind. by intros ->. Qed.

Lemma bind_run_Raise {A B} (m : M A) (f : A → M B) st e st1 :
  m st = (Raise e, st1) → bind m f st = (Raise e, st1).
Proof. unfold bind. by intros ->. Qed.

(** ** [get_or_create] *)

Lemma elem_of_matching u n l r :
  r ∈ matching u n l ↔ (Row.user r = u ∧ Row.name r = n) ∧ r ∈ l.
Proof. unfold matching. by rewrite list_elem_of_filter. Qed.

Lemma matching_app u n l1 l2 :
  matching u n (l1 ++ l2) = matching u n l1 ++ matching u n l2.
Proof. unfold matching. by rewrite filter_app. Qed.

Lemma matching_singleton u n r :
  matching u n [r] = if decide (Row.user r = u ∧ Row.name r = n) then [r] else [].
Proof. unfold matching. rewrite filter_cons, filter_nil. by case_decide. Qed.

(** What one call of [get_or_create] does, by the number of matching rows. *)
Lemma get_or_create_absent k u n st :
  matching u n (rows (table k st)) = [] →
  get_or_create k u n st =
    (Ok (Row.mk (next_id (table k st)) u n, true),
     set_table k (mkTable (rows (table k st) ++ [Row.mk (next_id (table k st)) u n])
                    (links (table k st)) (S (next_id (table k st)))) st).
Proof. unfold get_or_create. by intros ->. Qed.

Lemma get_or_create_one k u n st r :
  matching u n (rows (table k st)) = [r] →
  get_or_create k u n st = (Ok (r, false), st).
Proof. unfold get_or_create. by intros ->. Qed.

Lemma get_or_create_several k u n st :
  1 < length (matching u n (rows (table k st))) →
  get_or_create k u n st = (Raise MultipleObjectsReturned, st).
Proof.
  unfold get_or_create.
  destruct (matching u n (rows (table k st))) as [|r [|r' l]]; simpl; [lia | lia | done].
Qed.

(** A successful call leaves exactly one row under the key, and it is the
    row returned. *)
Lemma get_or_create_Ok k u n st r c st' :
  get_or_create k u n st = (Ok (r, c), st') →
  matching u n (rows (table k st')) = [r] ∧
  (∀ k', k' ≠ k → table k' st' = table k' st) ∧
  Recipe_objects st' = Recipe_objects st ∧
  next_recipe_id st' = next_recipe_id st ∧
  links (table k st') = links (table k st) ∧
  (c = false → st' = st) ∧
  (c = true → matching u n (rows (table k st)) = [] ∧
     rows (table k st') = rows (table k st) ++ [r] ∧
     Row.id r = next_id (table k st) ∧
     next_id (table k st') = S (next_id (table k st))) .
Proof.
  unfold get_or_create.
  destruct (matching u n (rows (table k st))) as [|r0 [|r1 l]] eqn:Hm; intros [= <- <- <-].
  - rewrite table_set_table_eq, Recipe_objects_set_table, next_recipe_id_set_table. simpl.
    rewrite matching_app, Hm, matching_singleton. simpl.
    rewrite decide_True by done.
    split_and!; try done.
    intros k' Hk. by apply table_set_table_ne.
  - split_and!; done.
Qed.

(** ** The loop of [_get_or_create_tags] and [_get_or_create_ingredients] *)

Lemma get_or_create_related_specs k u inst l :
  get_or_create_related k u inst (VSpecs l) = for_each l (loop_body k u inst).
Proof. reflexivity. Qed.

Lemma table_wf_append T r :
  table_wf T → Row.id r = next_id T →
  table_wf (mkTable (rows T ++ [r]) (links T) (S (next_id T))).
Proof.
  intros [Hnd Hlt] Hid. split; simpl.
  - rewrite fmap_app. apply NoDup_app. split_and!; [done | | apply NoDup_singleton].
    intros i Hi. simpl. rewrite list_elem_of_singleton. intros ->.
    apply list_elem_of_fmap in Hi as (r' & Hr' & Hin).
    rewrite Forall_forall in Hlt. specialize (Hlt _ Hin). simpl in *. lia.
  - apply Forall_app. split.
    + eapply Forall_impl; [exact Hlt|]. simpl. intros; lia.
    + apply Forall_singleton. lia.
Qed.

Lemma loop_body_Ok k u inst n st st' :
  loop_body k u inst n st = (Ok tt, st') →
  ∃ r,
    matching u n (rows (table k st')) = [r] ∧
    links (table k st') = {[ (Recipe.id inst, Row.id r) ]} ∪ links (table k st) ∧
    (∀ k', k' ≠ k → table k' st' = table k' st) ∧
    Recipe_objects st' = Recipe_objects st ∧
    next_recipe_id st' = next_recipe_id st ∧
    (∀ u' n', (u', n') ≠ (u, n) →
       matching u' n' (rows (table k st')) = matching u' n' (rows (table k st))) ∧
    (table_wf (table k st) → table_wf (table k st')) ∧
    (length (matching u n (rows (table k st))) ≤ 1) ∧
    (matching u n (rows (table k st)) ≠ [] →
       rows (table k st') = rows (table k st) ∧
       next_id (table k st') = next_id (table k st)).
Proof.
  unfold loop_body. intros H. apply bind_Ok in H as ([r c] & st1 & Hg & Ha).
  apply get_or_create_Ok in Hg as (Hm & Hk & Hr & Hn & Hl & Hf & Ht).
  unfold add in Ha. injection Ha as <-.
  exists r. rewrite !table_set_table_eq, Recipe_objects_set_table, next_recipe_id_set_table.
  simpl. rewrite Hl. split_and!; try done.
  - intros k' Hk'. rewrite table_set_table_ne by done. by apply Hk.
  - intros u' n' Hne. destruct c.
    + destruct Ht as (Hnone & -> & Hid & Hnext); [done|].
      rewrite matching_app, matching_singleton.
      assert (Hin : r ∈ matching u n (rows (table k st1))) by (rewrite Hm; apply list_elem_of_here).
      apply elem_of_matching in Hin as [[Hu Hnm] _].
      rewrite decide_False; [by rewrite app_nil_r | intros [? ?]; apply Hne; congruence].
    + by rewrite Hf.
  - intros [Hnd Hlt]. destruct c.
    + destruct Ht as (Hnone & Hrows & Hid & Hnext); [done|].
      rewrite Hrows, Hnext.
      by apply (table_wf_append (mkTable _ (links (table k st)) _)).
    + rewrite Hf by done. done.
  - destruct c.
    + destruct Ht as (-> & _); [done|]. simpl. lia.
    + rewrite <- Hf, Hm by done. simpl. lia.
  - intros Hne. destruct c.
    + by destruct Ht as (? & _).
    + by rewrite Hf.
Qed.

Lemma matching_stable u n u' n' (l l' : list Row.t) r :
  matching u n l' = [r] →
  (∀ u' n', (u', n') ≠ (u, n) → matching u' n' l' = matching u' n' l) →
  length (matching u n l) ≤ 1 →
  (matching u n l ≠ [] → l' = l) →
  matching u' n' l ≠ [] → matching u' n' l' = matching u' n' l.
Proof.
  intros Hm Hother Hle Hsame Hne.
  destruct (decide ((u', n') = (u, n))) as [[= -> ->]|Hd]; [|by apply Hother].
  by rewrite Hsame.
Qed.

(** The whole loop, when no iteration raises. *)
Lemma for_each_loop_Ok k u inst l st st' :
  for_each l (loop_body k u inst) st = (Ok tt, st') →
  (∀ k', k' ≠ k → table k' st' = table k' st) ∧
  Recipe_objects st' = Recipe_objects st ∧
  next_recipe_id st' = next_recipe_id st ∧
  (∀ n, n ∈ l → ∃ r, matching u n (rows (table k st')) = [r]) ∧
  (∀ p, p ∈ links (table k st') ↔
        p ∈ links (table k st) ∨
        ∃ n r, n ∈ l ∧ matching u n (rows (table k st')) = [r] ∧
               p = (Recipe.id inst, Row.id r)) ∧
  (∀ u' n', matching u' n' (rows (table k st)) ≠ [] →
     matching u' n' (rows (table k st')) = matching u' n' (rows (table k st))) ∧
  (table_wf (table k st) → table_wf (table k st')) ∧
  ((∀ n, n ∈ l → matching u n (rows (table k st)) ≠ []) →
     rows (table k st') = rows (table k st) ∧
     next_id (table k st') = next_id (table k st)).
Proof.
  revert st. induction l as [|n l IH]; intros st H; simpl in H.
  - injection H as <-. split_and!; try done.
    + intros n Hn. by apply elem_of_nil in Hn.
    + intros p. split; [by left|]. intros [?|(n & r & Hn & _)]; [done|].
      by apply elem_of_nil in Hn.
  - apply bind_Ok in H as ([] & st1 & Hb & Hl).
    apply loop_body_Ok in Hb as (r & Hm & Hlk & Hk1 & Hr1 & Hn1 & Ho1 & Hwf1 & Hle1 & Hs1).
    apply IH in Hl as (Hk & Hr & Hn & Hall & Hlinks & Hst & Hwf & Hsame).
    assert (Hst1 : ∀ u' n', matching u' n' (rows (table k st)) ≠ [] →
              matching u' n' (rows (table k st1)) = matching u' n' (rows (table k st))).
    { intros u' n' Hne. eapply matching_stable; eauto. intros Hx. by apply Hs1. }
    assert (Hmr : matching u n (rows (table k st')) = [r]).
    { rewrite Hst; [done | by rewrite Hm]. }
    split_and!.
    + intros k' Hk'. rewrite Hk, Hk1; done.
    + congruence.
    + congruence.
    + intros n' [->|Hn']%elem_of_cons; [eauto | by apply Hall].
    + intros p. rewrite Hlinks, Hlk, elem_of_union, elem_of_singleton. split.
      * intros [[->|?]|(n' & r' & Hn' & Hm' & ->)].
        -- right. exists n, r. split_and!; [left | done | done].
        -- by left.
        -- right. exists n', r'. split_and!; [by right | done | done].
      * intros [?|(n' & r' & [->|Hn']%elem_of_cons & Hm' & ->)].
        -- left. by right.
        -- left. left. congruence.
        -- right. eauto.
    + intros u' n' Hne. rewrite Hst; [by apply Hst1 | by rewrite Hst1].
    + auto.
    + intros Hne. destruct Hs1 as [Hrows1 Hnext1]; [apply Hne; left|].
      destruct Hsame as [Hrows Hnext].
      * intros n' Hn'. rewrite Hrows1. apply Hne. by right.
      * split; congruence.
Qed.

(** The loop returns when no listed name has several rows. *)
Lemma for_each_loop_returns k u inst l st :
  (∀ n, n ∈ l → length (matching u n (rows (table k st))) ≤ 1) →
  ∃ st', for_each l (loop_body k u inst) st = (Ok tt, st').
Proof.
  revert st. induction l as [|n l IH]; intros st Hle; simpl.
  - by eexists.
  - assert (Hstep : ∃ st1, loop_body k u inst n st = (Ok tt, st1)).
    { unfold loop_body, get_or_create.
      specialize (Hle n (list_elem_of_here _ _)).
      destruct (matching u n (rows (table k st))) as [|r [|r' t]] eqn:Hm.
      - erewrite bind_run_Ok; [|unfold get_or_create; rewrite Hm; reflexivity].
        by eexists.
      - erewrite bind_run_Ok; [|unfold get_or_create; rewrite Hm; reflexivity].
        by eexists.
      - simpl in Hle. lia. }
    destruct Hstep as [st1 Hstep]. erewrite bind_run_Ok by exact Hstep.
    apply IH. intros n' Hn'.
    apply loop_body_Ok in Hstep as (r & Hm & _ & _ & _ & _ & Ho & _ & _ & _).
    destruct (decide (n' = n)) as [->|Hd].
    + rewrite Hm. simpl. lia.
    + rewrite Ho by congruence. apply Hle. by right.
Qed.

(** ** The guarded blocks of [update] *)

Lemma for_in_Ok v body st st' :
  for_in v body st = (Ok tt, st') →
  (v = VStr "" ∨ ∃ names, v = VSpecs names) ∧
  for_each (spec_names v) body st = (Ok tt, st').
Proof.
  destruct v as [|s|?|?|?|names]; simpl; try discriminate.
  - destruct s; [|discriminate]. intros H. split; [by left | done].
  - intros H. split; [right; by eexists | done].
Qed.

Lemma update_unfold u inst vd :
  update u inst vd =
    (relink KIngredient u inst (default VNone (vd !! "ingredients"));;
     relink KTag u inst (default VNone (vd !! "tags"));;
     save (set_attrs inst (delete "ingredients" (delete "tags" vd)));;
     ret (set_attrs inst (delete "ingredients" (delete "tags" vd)))).
Proof.
  unfold update, pop, relink, _get_or_create_ingredients, _get_or_create_tags.
  by rewrite lookup_delete_ne.
Qed.

(** The three stores an [update] that returns goes through. *)
Lemma update_Ok u inst vd st inst' st' :
  update u inst vd st = (Ok inst', st') →
  ∃ st1 st2,
    relink KIngredient u inst (default VNone (vd !! "ingredients")) st = (Ok tt, st1) ∧
    relink KTag u inst (default VNone (vd !! "tags")) st1 = (Ok tt, st2) ∧
    inst' = set_attrs inst (delete "ingredients" (delete "tags" vd)) ∧
    save inst' st2 = (Ok tt, st').
Proof.
  rewrite update_unfold. intros H.
  apply bind_Ok in H as ([] & st1 & H1 & H).
  apply bind_Ok in H as ([] & st2 & H2 & H).
  apply bind_Ok in H as ([] & st3 & H3 & H).
  injection H as <- <-. eauto 10.
Qed.

Lemma save_tables inst st st' k :
  save inst st = (Ok tt, st') → table k st' = table k st.
Proof. unfold save. intros [= <-]. apply table_set_recipes. Qed.

Lemma related_ext k st st' rid :
  table k st' = table k st → related k st' rid = related k st rid.
Proof. unfold related. by intros ->. Qed.

(** A block that is skipped changes nothing; a block that runs leaves the
    recipe linked to exactly the rows its names resolve to. *)
Lemma relink_Ok k u inst v st st' :
  relink k u inst v st = (Ok tt, st') →
  (∀ k', k' ≠ k → table k' st' = table k' st) ∧
  Recipe_objects st' = Recipe_objects st ∧
  next_recipe_id st' = next_recipe_id st ∧
  (table_wf (table k st) → table_wf (table k st')) ∧
  (v = VNone → st' = st) ∧
  (v ≠ VNone →
     (v = VStr "" ∨ ∃ names, v = VSpecs names) ∧
     (∀ n, n ∈ spec_names v → ∃ r, matching u n (rows (table k st')) = [r]) ∧
     (∀ p, p ∈ links (table k st') ↔
           (p ∈ links (table k st) ∧ p.1 ≠ Recipe.id inst) ∨
           ∃ n r, n ∈ spec_names v ∧ matching u n (rows (table k st')) = [r] ∧
                  p = (Recipe.id inst, Row.id r)) ∧
     ((∀ n, n ∈ spec_names v → matching u n (rows (table k st)) ≠ []) →
        rows (table k st') = rows (table k st) ∧
        next_id (table k st') = next_id (table k st))).
Proof.
  unfold relink. destruct (is_not_None v) eqn:Hv.
  - intros H. apply bind_Ok in H as ([] & st1 & Hc & H).
    unfold clear in Hc. injection Hc as <-.
    unfold get_or_create_related in H. apply for_in_Ok in H as [Hshape H].
    apply for_each_loop_Ok in H as (Hk & Hr & Hn & Hall & Hlinks & Hst & Hwf & Hsame).
    rewrite !table_set_table_eq in *. simpl in *.
    rewrite Recipe_objects_set_table in Hr. rewrite next_recipe_id_set_table in Hn.
    split_and!.
    + intros k' Hk'. rewrite Hk by done. by apply table_set_table_ne.
    + done.
    + done.
    + intros Hw. apply Hwf. destruct Hw. by split.
    + intros ->. done.
    + intros _. split_and!; [done | done | | done].
      intros p. rewrite Hlinks, elem_of_filter. tauto.
  - intros [= <-]. split_and!; try done.
    intros Hne. destruct v; done.
Qed.

Lemma NoDup_fmap_eq {A B} (f : A → B) (l : list A) x y :
  NoDup (f <$> l) → x ∈ l → y ∈ l → f x = f y → x = y.
Proof.
  induction l as [|a l IH]; simpl; [by intros _ ?%elem_of_nil|].
  intros [Hnotin Hnd]%NoDup_cons [->|Hx]%elem_of_cons [->|Hy]%elem_of_cons Heq.
  - done.
  - exfalso. apply Hnotin. rewrite Heq. by apply list_elem_of_fmap_2.
  - exfalso. apply Hnotin. rewrite <- Heq. by apply list_elem_of_fmap_2.
  - by apply IH.
Qed.

Lemma elem_of_related k st rid t :
  t ∈ related k st rid ↔ (rid, Row.id t) ∈ links (table k st) ∧ t ∈ rows (table k st).
Proof. unfold related. by rewrite list_elem_of_filter. Qed.

Lemma matching_one_elem u n l r t :
  matching u n l = [r] → t ∈ l → Row.user t = u → Row.name t = n → t = r.
Proof.
  intros Hm Ht Hu Hn.
  assert (Hin : t ∈ matching u n l) by by apply elem_of_matching.
  rewrite Hm in Hin. by apply list_elem_of_singleton in Hin.
Qed.

Lemma matching_one_inv u n l r :
  matching u n l = [r] → r ∈ l ∧ Row.user r = u ∧ Row.name r = n.
Proof.
  intros Hm.
  assert (Hin : r ∈ matching u n l) by (rewrite Hm; apply list_elem_of_here).
  apply elem_of_matching in Hin. tauto.
Qed.

(** After a block that ran, the related rows are exactly the rows of the
    requesting user under the listed names. *)
Lemma related_after_relink k u inst v st st' :
  table_wf (table k st) →
  relink k u inst v st = (Ok tt, st') →
  v ≠ VNone →
  ∀ t, t ∈ related k st' (Recipe.id inst) ↔
       t ∈ rows (table k st') ∧ Row.user t = u ∧ Row.name t ∈ spec_names v.
Proof.
  intros Hwf H Hv.
  apply relink_Ok in H as (_ & _ & _ & Hwf' & _ & Hrun).
  destruct (Hrun Hv) as (_ & Hall & Hlinks & _).
  destruct (Hwf' Hwf) as [Hnd _].
  intros t. rewrite elem_of_related, Hlinks. split.
  - intros [[[_ Hne]|(n & r & Hn & Hm & [= Hid])] Ht]; [done|].
    apply matching_one_inv in Hm as (Hr & Hu & Hname).
    assert (t = r) as -> by by eapply NoDup_fmap_eq.
    by subst.
  - intros (Ht & Hu & Hn). split; [|done].
    right. destruct (Hall _ Hn) as [r Hm].
    exists (Row.name t), r. split_and!; [done | done |].
    by rewrite (matching_one_elem _ _ _ _ _ Hm Ht Hu eq_refl).
Qed.

Lemma related_nil k st rid :
  (∀ p, p ∈ links (table k st) → p.1 ≠ rid) → related k st rid = [].
Proof.
  intros H. apply elem_of_nil_inv. intros t [Hl _]%elem_of_related.
  by apply H in Hl.
Qed.

(** What [update] does to one relation is what its block does there. *)
Lemma update_relink k u inst vd st inst' st' :
  update u inst vd st = (Ok inst', st') →
  ∃ sa sb,
    table k sa = table k st ∧
    relink k u inst (default VNone (vd !! relation_key k)) sa = (Ok tt, sb) ∧
    table k st' = table k sb.
Proof.
  intros (st1 & st2 & Hi & Ht & _ & Hs)%update_Ok.
  pose proof (save_tables _ _ _ k Hs) as Hsave.
  destruct k.
  - exists st1, st2. split_and!; [|exact Ht|exact Hsave].
    apply relink_Ok in Hi as (Hk & _). by apply (Hk KTag).
  - exists st, st1. split_and!; [done|exact Hi|].
    apply relink_Ok in Ht as (Hk & _). rewrite Hsave. by apply (Hk KIngredient).
Qed.

Lemma relink_returns k u inst v st :
  v = VNone ∨ v = VStr "" ∨
    (∃ names, v = VSpecs names ∧
       ∀ n, n ∈ names → length (matching u n (rows (table k st))) ≤ 1) →
  ∃ st', relink k u inst v st = (Ok tt, st').
Proof.
  intros [->|[->|(names & -> & Hle)]]; unfold relink.
  - by eexists.
  - by eexists.
  - change (is_not_None (VSpecs names)) with true. cbv iota.
    erewrite bind_run_Ok by reflexivity.
    rewrite get_or_create_related_specs.
    apply for_each_loop_returns. by rewrite table_set_table_eq.
Qed.

(** [update] returns when each relation is absent or a list none of whose
    names has several rows under the requesting user. *)
Lemma update_returns u inst vd st :
  (∀ k, vd !! relation_key k = None ∨
        ∃ names, vd !! relation_key k = Some (VSpecs names) ∧
          ∀ n, n ∈ names → length (matching u n (rows (table k st))) ≤ 1) →
  ∃ inst' st', update u inst vd st = (Ok inst', st').
Proof.
  intros H. rewrite update_unfold.
  destruct (relink_returns KIngredient u inst (default VNone (vd !! "ingredients")) st)
    as [st1 H1].
  { destruct (H KIngredient) as [Hx|(names & Hx & Hle)];
      change (relation_key KIngredient) with "ingredients" in Hx;
      rewrite Hx; [by left|].
    right; right. by exists names. }
  destruct (relink_returns KTag u inst (default VNone (vd !! "tags")) st1)
    as [st2 H2].
  { destruct (H KTag) as [Hx|(names & Hx & Hle)];
      change (relation_key KTag) with "tags" in Hx;
      rewrite Hx; [by left|].
    right; right. exists names. split; [done|].
    apply relink_Ok in H1 as (Hk & _). rewrite (Hk KTag) by done. done. }
  erewrite bind_run_Ok by exact H1. erewrite bind_run_Ok by exact H2.
  unfold save, bind, ret. by do 2 eexists.
Qed.

(** C1.  For every [update] that returns, and for each of the two
    relations independently (tags under the key "tags", ingredients under
    "ingredients"): when the key is absent from the validated data the
    recipe's related rows are unchanged; when it holds the empty list they
    become empty; when it holds a non-empty list they are replaced by
    exactly the rows of the requesting user that the list names, one row
    per name, whatever the recipe was related to before.  And [update]
    does return whenever no listed name has several rows. *)
Theorem update_three_way u inst vd st :
  ((∀ k, vd !! relation_key k = None ∨
         ∃ names, vd !! relation_key k = Some (VSpecs names) ∧
           ∀ n, n ∈ names → length (matching u n (rows (table k st))) ≤ 1) →
   ∃ inst' st', update u inst vd st = (Ok inst', st')) ∧
  ∀ inst' st', update u inst vd st = (Ok inst', st') →
    ∀ k,
      (vd !! relation_key k = None →
         related k st' (Recipe.id inst) = related k st (Recipe.id inst)) ∧
      (vd !! relation_key k = Some (VSpecs []) →
         related k st' (Recipe.id inst) = []) ∧
      (∀ names, vd !! relation_key k = Some (VSpecs names) → names ≠ [] →
         table_wf (table k st) →
         (∀ n, n ∈ names → ∃ r, matching u n (rows (table k st')) = [r]) ∧
         (∀ t, t ∈ related k st' (Recipe.id inst) ↔
               t ∈ rows (table k st') ∧ Row.user t = u ∧ Row.name t ∈ names)).
Proof.
  split; [apply update_returns|].
  intros inst' st' H k.
  destruct (update_relink k _ _ _ _ _ _ H) as (sa & sb & Ha & Hr & Hb).
  split_and!.
  - intros Hnone. rewrite Hnone in Hr. simpl in Hr.
    apply relink_Ok in Hr as (_ & _ & _ & _ & Heq & _).
    apply related_ext. rewrite Hb, Heq by done. done.
  - intros Hsome. rewrite Hsome in Hr. simpl in Hr.
    apply relink_Ok in Hr as (_ & _ & _ & _ & _ & Hrun).
    destruct Hrun as (_ & _ & Hlinks & _); [done|].
    rewrite (related_ext k sb st') by done.
    apply related_nil. intros p [[_ ?]|(n & r & Hn & _)]%Hlinks; [done|].
    simpl in Hn. by apply elem_of_nil in Hn.
  - intros names Hsome Hne Hwf. rewrite Hsome in Hr. simpl in Hr.
    rewrite <- Ha in Hwf. split.
    + apply relink_Ok in Hr as (_ & _ & _ & _ & _ & Hrun).
      destruct Hrun as (_ & Hall & _); [done|]. rewrite Hb. exact Hall.
    + intros t. rewrite (related_ext k sb st'), Hb by done.
      by apply (related_after_relink k u inst (VSpecs names) sa sb).
Qed.

Lemma update_three_way_witness :
  ∃ inst' st',
    update 1 sample_recipe (<["tags" := VSpecs ["Indian"; "Dinner"]]> ∅) sample_store
      = (Ok inst', st') ∧
    (∀ t, t ∈ related KTag st' 1 ↔
          t ∈ rows (table KTag st') ∧ Row.user t = 1 ∧
          Row.name t ∈ ["Indian"; "Dinner"]) ∧
    related KIngredient st' 1 = related KIngredient sample_store 1.
Proof.
  destruct (update_three_way 1 sample_recipe
              (<["tags" := VSpecs ["Indian"; "Dinner"]]> ∅) sample_store)
    as [Hret Hpol].
  destruct Hret as (inst' & st' & Hrun).
  { intros [].
    - right. exists ["Indian"; "Dinner"]. split; [reflexivity|].
      intros n Hn.
      repeat (apply elem_of_cons in Hn as [->|Hn]); [| |by apply elem_of_nil in Hn];
        vm_compute; lia.
    - by left. }
  exists inst', st'. split; [exact Hrun|]. split.
  - apply (Hpol inst' st' Hrun KTag); [reflexivity | discriminate |].
    apply (store_wf_table KTag), sample_store_wf.
  - by apply (Hpol inst' st' Hrun KIngredient).
Defined.

(** ** [create] *)

Lemma Recipe_objects_create_Ok kwargs st r st' :
  Recipe_objects_create kwargs st = (Ok r, st') →
  Recipe.id r = next_recipe_id st ∧
  (∀ k, table k st' = table k st) ∧
  Recipe_objects st' = Recipe_objects st ++ [r] ∧
  next_recipe_id st' = S (next_recipe_id st) ∧
  kwargs !! "user" = Some (VUser (Recipe.user r)).
Proof.
  unfold Recipe_objects_create. case_decide; [|discriminate].
  destruct (kwargs !! "user") as [[]|]; try discriminate.
  destruct (kwargs !! "title") as [[]|]; try discriminate.
  destruct (kwargs !! "time_minutes") as [[]|]; try discriminate.
  destruct (kwargs !! "price") as [[]|]; try discriminate.
  intros [= <- <-]. split_and!; try done; by intros [].
Qed.

Lemma create_unfold u vd :
  create u vd =
    (do recipe <- Recipe_objects_create (delete "ingredients" (delete "tags" vd));
     get_or_create_related KTag u recipe (default (VSpecs []) (vd !! "tags"));;
     get_or_create_related KIngredient u recipe (default (VSpecs []) (vd !! "ingredients"));;
     ret recipe).
Proof.
  unfold create, pop, _get_or_create_ingredients, _get_or_create_tags.
  by rewrite lookup_delete_ne.
Qed.

Lemma get_or_create_related_Ok k u inst v st st' :
  get_or_create_related k u inst v st = (Ok tt, st') →
  (v = VStr "" ∨ ∃ names, v = VSpecs names) ∧
  for_each (spec_names v) (loop_body k u inst) st = (Ok tt, st').
Proof. apply for_in_Ok. Qed.

(** What [create] does to one relation is what the loop does there, on a
    table that is still the table [create] found. *)
Lemma create_Ok k u vd st r st' :
  create u vd st = (Ok r, st') →
  ∃ sa sb,
    Recipe.id r = next_recipe_id st ∧
    table k sa = table k st ∧
    for_each (spec_names (default (VSpecs []) (vd !! relation_key k)))
      (loop_body k u r) sa = (Ok tt, sb) ∧
    table k st' = table k sb.
Proof.
  rewrite create_unfold. intros H.
  apply bind_Ok in H as (r' & st0 & Hc & H).
  apply bind_Ok in H as ([] & st1 & Ht & H).
  apply bind_Ok in H as ([] & st2 & Hi & H).
  injection H as <- <-.
  apply Recipe_objects_create_Ok in Hc as (Hid & Htab & _).
  apply get_or_create_related_Ok in Ht as [_ Ht].
  apply get_or_create_related_Ok in Hi as [_ Hi].
  destruct k.
  - exists st0, st1. split_and!; [done | apply Htab | exact Ht |].
    apply for_each_loop_Ok in Hi as (Hk & _). by apply (Hk KTag).
  - exists st1, st2. split_and!; [done | | exact Hi | done].
    apply for_each_loop_Ok in Ht as (Hk & _).
    rewrite (Hk KIngredient) by done. apply Htab.
Qed.

(** After the loop, on a recipe nothing was linked to, the related rows
    are exactly the rows of the requesting user under the listed names. *)
Lemma related_after_loop k u inst l st st' :
  table_wf (table k st) →
  (∀ p, p ∈ links (table k st) → p.1 ≠ Recipe.id inst) →
  for_each l (loop_body k u inst) st = (Ok tt, st') →
  ∀ t, t ∈ related k st' (Recipe.id inst) ↔
       t ∈ rows (table k st') ∧ Row.user t = u ∧ Row.name t ∈ l.
Proof.
  intros Hwf Hfresh H.
  apply for_each_loop_Ok in H as (_ & _ & _ & Hall & Hlinks & _ & Hwf' & _).
  destruct (Hwf' Hwf) as [Hnd _].
  intros t. rewrite elem_of_related, Hlinks. split.
  - intros [[Hold|(n & r & Hn & Hm & [= Hid])] Ht]; [by apply Hfresh in Hold|].
    apply matching_one_inv in Hm as (Hr & Hu & Hname).
    assert (t = r) as -> by by eapply NoDup_fmap_eq.
    by subst.
  - intros (Ht & Hu & Hn). split; [|done].
    right. destruct (Hall _ Hn) as [r Hm].
    exists (Row.name t), r. split_and!; [done | done |].
    by rewrite (matching_one_elem _ _ _ _ _ Hm Ht Hu eq_refl).
Qed.

(** Rows characterised by a list of names, one row per name, carry each
    distinct name of the list once. *)
Lemma related_names k u rid names st :
  NoDup (Row.id <$> rows (table k st)) →
  (∀ n, n ∈ names → ∃ r, matching u n (rows (table k st)) = [r]) →
  (∀ t, t ∈ related k st rid ↔
        t ∈ rows (table k st) ∧ Row.user t = u ∧ Row.name t ∈ names) →
  Row.name <$> related k st rid ≡ₚ remove_dups names.
Proof.
  intros Hnd Hall Hrel. apply NoDup_Permutation.
  - apply NoDup_fmap_2_strong.
    + intros t1 t2 (Ht1 & Hu1 & Hn1)%Hrel (Ht2 & Hu2 & Hn2)%Hrel Heq.
      destruct (Hall _ Hn1) as [r Hm].
      rewrite (matching_one_elem _ _ _ _ _ Hm Ht1 Hu1 eq_refl).
      by rewrite (matching_one_elem _ _ _ _ _ Hm Ht2 Hu2 (eq_sym Heq)).
    + unfold related. apply NoDup_filter. by apply NoDup_fmap_1 in Hnd.
  - apply NoDup_remove_dups.
  - intros n. rewrite elem_of_remove_dups, list_elem_of_fmap. split.
    + intros (t & -> & (_ & _ & Hn)%Hrel). done.
    + intros Hn. destruct (Hall _ Hn) as [r Hm].
      apply matching_one_inv in Hm as (Hr & Hu & Hname).
      exists r. split; [done|]. apply Hrel. by subst.
Qed.

(** [create] returns when the row can be inserted and each relation is
    absent or a list none of whose names has several rows. *)
Lemma create_returns u vd st :
  (∃ r st0,
     Recipe_objects_create (delete "ingredients" (delete "tags" vd)) st = (Ok r, st0)) →
  (∀ k, vd !! relation_key k = None ∨
        ∃ names, vd !! relation_key k = Some (VSpecs names) ∧
          ∀ n, n ∈ names → length (matching u n (rows (table k st))) ≤ 1) →
  ∃ r st', create u vd st = (Ok r, st').
Proof.
  intros (r & st0 & Hc) H. rewrite create_unfold.
  erewrite bind_run_Ok by exact Hc.
  apply Recipe_objects_create_Ok in Hc as (_ & Htab & _).
  assert (Hloop : ∀ k st1, table k st1 = table k st →
    ∃ st2, get_or_create_related k u r
             (default (VSpecs []) (vd !! relation_key k)) st1 = (Ok tt, st2)).
  { intros k st1 Heq. destruct (H k) as [->|(names & -> & Hle)].
    - by eexists.
    - simpl. apply for_each_loop_returns. by rewrite Heq. }
  destruct (Hloop KTag st0 (Htab _)) as [st1 H1].
  erewrite bind_run_Ok by exact H1.
  destruct (Hloop KIngredient st1) as [st2 H2].
  { apply get_or_create_related_Ok in H1 as [_ H1].
    apply for_each_loop_Ok in H1 as (Hk & _).
    rewrite (Hk KIngredient) by done. apply Htab. }
  erewrite bind_run_Ok by exact H2. by do 2 eexists.
Qed.

(** C2.  For every [create] that returns, on a well-formed store, with a
    list of names under "tags" (or "ingredients"), duplicates allowed:
    the names of the rows related to the new recipe are the distinct
    names of the list, each once, and every related row belongs to the
    requesting user.  Linking is a set insertion: linking a row again
    changes nothing.  And [create] does return whenever the recipe row
    can be inserted and no listed name has several rows. *)
Theorem create_distinct_names u vd st :
  ((∃ r st0,
      Recipe_objects_create (delete "ingredients" (delete "tags" vd)) st = (Ok r, st0)) →
   (∀ k, vd !! relation_key k = None ∨
         ∃ names, vd !! relation_key k = Some (VSpecs names) ∧
           ∀ n, n ∈ names → length (matching u n (rows (table k st))) ≤ 1) →
   ∃ r st', create u vd st = (Ok r, st')) ∧
  (∀ k rid oid st0, (add k rid oid (add k rid oid st0).2).2 = (add k rid oid st0).2) ∧
  ∀ r st', store_wf st → create u vd st = (Ok r, st') →
    ∀ k names, vd !! relation_key k = Some (VSpecs names) →
      Row.name <$> related k st' (Recipe.id r) ≡ₚ remove_dups names ∧
      Forall (λ t, Row.user t = u) (related k st' (Recipe.id r)).
Proof.
  split_and!; [apply create_returns | |].
  { intros k rid oid st0. unfold add. simpl.
    rewrite table_set_table_eq, set_table_set_table. simpl.
    f_equal. f_equal. by rewrite (assoc_L (∪)), (idemp_L (∪)). }
  intros r st' Hwf H k names Hsome.
  destruct (create_Ok k _ _ _ _ _ H) as (sa & sb & Hid & Ha & Hloop & Hb).
  rewrite Hsome in Hloop. simpl in Hloop.
  assert (Hrel : ∀ t, t ∈ related k st' (Recipe.id r) ↔
            t ∈ rows (table k st') ∧ Row.user t = u ∧ Row.name t ∈ names).
  { intros t. rewrite (related_ext k sb st'), Hb by done.
    apply (related_after_loop k u r names sa sb); [| |done].
    - rewrite Ha. by apply store_wf_table.
    - rewrite Ha, Hid. intros p Hp%(store_wf_links _ _ _ Hwf). lia. }
  apply for_each_loop_Ok in Hloop as (_ & _ & _ & Hall & _ & _ & Hwf' & _).
  split.
  - apply (related_names k u); [| |done].
    + rewrite Hb. apply Hwf'. rewrite Ha. by apply store_wf_table.
    + rewrite Hb. exact Hall.
  - apply Forall_forall. intros t (_ & Hu & _)%Hrel. done.
Qed.

Lemma create_distinct_names_witness :
  ∃ r st',
    create 1 sample_validated sample_store = (Ok r, st') ∧
    Row.name <$> related KTag st' (Recipe.id r)
      ≡ₚ remove_dups ["Thai"; "Dinner"; "Thai"] ∧
    length (remove_dups ["Thai"; "Dinner"; "Thai"]) = 2.
Proof.
  destruct (create_distinct_names 1 sample_validated sample_store) as (Hret & _ & Hnames).
  destruct Hret as (r & st' & Hrun).
  { eexists _, _. vm_compute. reflexivity. }
  { intros [].
    - right. exists ["Thai"; "Dinner"; "Thai"]. split; [reflexivity|].
      intros n Hn.
      repeat (apply elem_of_cons in Hn as [->|Hn]); [| | |by apply elem_of_nil in Hn];
        vm_compute; lia.
    - by left. }
  exists r, st'. split; [exact Hrun|]. split; [|vm_compute; reflexivity].
  apply (Hnames r st' sample_store_wf Hrun KTag ["Thai"; "Dinner"; "Thai"]).
  reflexivity.
Defined.

(** C9.  On [create] an absent "tags" (or "ingredients") key is the same
    as the empty list: both runs are equal, and on a well-formed store the
    new recipe is related to nothing.  [update] does tell the two apart:
    on the sample store, the empty list clears the recipe's tags and the
    absent key keeps them. *)
Theorem create_absent_is_empty u vd st k :
  vd !! relation_key k = None →
  create u (<[relation_key k := VSpecs []]> vd) st = create u vd st ∧
  (store_wf st → ∀ r st', create u vd st = (Ok r, st') →
     related k st' (Recipe.id r) = []) ∧
  (update 1 sample_recipe (<["tags" := VSpecs []]> ∅) sample_store).2
    ≠ (update 1 sample_recipe ∅ sample_store).2.
Proof.
  intros Hnone. split_and!.
  - rewrite !create_unfold.
    assert (Hdel : delete "ingredients" (delete "tags" (<[relation_key k := VSpecs []]> vd))
                   = delete "ingredients" (delete "tags" vd)).
    { destruct k; simpl in *.
      - rewrite delete_insert_eq. done.
      - rewrite delete_insert_ne, delete_insert_eq by done. done. }
    rewrite Hdel.
    destruct k; simpl in *.
    + rewrite lookup_insert_eq, lookup_insert_ne, Hnone by done. done.
    + rewrite lookup_insert_eq, lookup_insert_ne, Hnone by done. done.
  - intros Hwf r st' H.
    destruct (create_Ok k _ _ _ _ _ H) as (sa & sb & Hid & Ha & Hloop & Hb).
    rewrite Hnone in Hloop. simpl in Hloop. injection Hloop as <-.
    rewrite (related_ext k sa st'), (related_ext k st sa) by done.
    apply related_nil. rewrite Hid. intros p Hp%(store_wf_links _ _ _ Hwf). lia.
  - vm_compute. discriminate.
Qed.

Lemma create_absent_is_empty_witness :
  create 1 (<["tags" := VSpecs []]> (delete "tags" sample_validated)) sample_store
    = create 1 (delete "tags" sample_validated) sample_store ∧
  ∃ r st', create 1 (delete "tags" sample_validated) sample_store = (Ok r, st') ∧
    related KTag st' (Recipe.id r) = [].
Proof.
  destruct (create_absent_is_empty 1 (delete "tags" sample_validated) sample_store KTag)
    as (Heq & Hempty & _).
  - reflexivity.
  - split; [exact Heq|].
    eexists _, _. split; [vm_compute; reflexivity|].
    apply (Hempty sample_store_wf). vm_compute. reflexivity.
Defined.

(** ** [get_or_create] on a name that is present *)

(** C3, counterexample.  In a well-formed store where the name is present
    twice under the owner, [get_or_create] returns no row: it raises
    [MultipleObjectsReturned]. *)
Lemma get_or_create_existing_raises :
  store_wf duplicate_store ∧
  matching 1 "Indian" (rows (table KTag duplicate_store)) ≠ [] ∧
  get_or_create KTag 1 "Indian" duplicate_store
    = (Raise MultipleObjectsReturned, duplicate_store) ∧
  ¬ returns_existing_row KTag 1 "Indian" duplicate_store.
Proof.
  split_and!.
  - exact duplicate_store_wf.
  - discriminate.
  - reflexivity.
  - intros (r & st' & H & _). discriminate.
Qed.

(** C3, amended.  For a name present under the owner, [get_or_create]
    creates nothing: the store, and with it the number of rows under that
    owner and name, is the same after the call as before.  When exactly one
    row is present the call returns that row, uncreated; when several are
    present it raises [MultipleObjectsReturned]. *)
Theorem get_or_create_existing k u n st :
  matching u n (rows (table k st)) ≠ [] →
  (get_or_create k u n st).2 = st ∧
  length (matching u n (rows (table k (get_or_create k u n st).2))) =
    length (matching u n (rows (table k st))) ∧
  (∀ r, matching u n (rows (table k st)) = [r] →
     get_or_create k u n st = (Ok (r, false), st) ∧ returns_existing_row k u n st) ∧
  (1 < length (matching u n (rows (table k st))) →
     get_or_create k u n st = (Raise MultipleObjectsReturned, st)).
Proof.
  intros Hne.
  assert (Hst : (get_or_create k u n st).2 = st).
  { unfold get_or_create.
    by destruct (matching u n (rows (table k st))) as [|r [|r' l]]. }
  split_and!.
  - done.
  - by rewrite Hst.
  - intros r Hm. split; [by apply get_or_create_one|].
    exists r, st. split_and!; [by apply get_or_create_one | | done].
    rewrite Hm. apply list_elem_of_here.
  - apply get_or_create_several.
Qed.

Lemma get_or_create_existing_witness :
  get_or_create KTag 1 "Indian" sample_store = (Ok (Row.mk 2 1 "Indian", false), sample_store) ∧
  get_or_create KTag 1 "Indian" duplicate_store
    = (Raise MultipleObjectsReturned, duplicate_store).
Proof.
  split.
  - destruct (get_or_create_existing KTag 1 "Indian" sample_store) as (_ & _ & H & _);
      [discriminate|].
    exact (proj1 (H _ eq_refl)).
  - destruct (get_or_create_existing KTag 1 "Indian" duplicate_store) as (_ & _ & _ & H);
      [discriminate|].
    apply H. simpl. lia.
Defined.

(** ** Scalar columns *)

Lemma setattr_id r attr v : Recipe.id (setattr r attr v) = Recipe.id r.
Proof. destruct r, v; simpl; repeat case_decide; done. Qed.

Lemma setattr_unfit r attr v : fits attr v = false → setattr r attr v = r.
Proof.
  destruct r, v; simpl; intros Hf; repeat case_decide; subst; try done.
  all: try by vm_compute in Hf.
  all: exfalso; match goal with H : _ ∉ _ |- _ => apply H; repeat constructor end.
Qed.

Ltac fits_cases H :=
  apply bool_decide_eq_true in H;
  repeat match type of H with
         | _ ∈ _ :: _ => apply elem_of_cons in H as [->|H]
         | _ ∈ [] => by apply elem_of_nil in H
         | _ = _ => subst
         end.

Lemma getattr_setattr_eq r attr v :
  fits attr v = true → getattr (setattr r attr v) attr = Some v.
Proof.
  destruct r, v; intros Hf; simpl in Hf; try discriminate; fits_cases Hf; reflexivity.
Qed.

Lemma getattr_setattr_ne r attr v a :
  a ≠ attr → getattr (setattr r attr v) a = getattr r a.
Proof.
  intros Hne. destruct r, v; simpl; unfold getattr;
    repeat (case_decide; subst; simpl; try done).
Qed.

(** A column after the loop of [setattr] calls: the value the validated
    data gives it, if it gives one that fits, and its old value if not. *)
Lemma getattr_set_attrs inst (m : gmap string value) a :
  getattr (set_attrs inst m) a =
    match m !! a with
    | Some v => if fits a v then Some v else getattr inst a
    | None => getattr inst a
    end.
Proof.
  revert a. unfold set_attrs.
  apply (map_fold_weak_ind (λ r (m : gmap string value), ∀ a,
    getattr r a = match m !! a with
                  | Some v => if fits a v then Some v else getattr inst a
                  | None => getattr inst a
                  end)).
  - intros a. by rewrite lookup_empty.
  - intros i x m' r Hnone IH a. destruct (decide (a = i)) as [->|Hne].
    + rewrite lookup_insert_eq. destruct (fits i x) eqn:Hf.
      * by apply getattr_setattr_eq.
      * rewrite setattr_unfit, IH, Hnone by done. done.
    + rewrite lookup_insert_ne, getattr_setattr_ne, IH by done. done.
Qed.

Lemma set_attrs_id inst (m : gmap string value) :
  Recipe.id (set_attrs inst m) = Recipe.id inst.
Proof.
  unfold set_attrs.
  apply (map_fold_weak_ind (λ r (_ : gmap string value), Recipe.id r = Recipe.id inst)).
  - done.
  - intros i x m' r _ IH. by rewrite setattr_id.
Qed.

(** A recipe row is its primary key and its columns. *)
Lemma recipe_ext r r' :
  Recipe.id r = Recipe.id r' → (∀ a, getattr r a = getattr r' a) → r = r'.
Proof.
  destruct r as [i u t m p l d g], r' as [i' u' t' m' p' l' d' g']. simpl.
  intros -> H.
  pose proof (H "user") as [= ->]. pose proof (H "title") as [= ->].
  pose proof (H "time_minutes") as [= ->]. pose proof (H "price") as [= ->].
  pose proof (H "link") as Hl. pose proof (H "description") as Hd.
  pose proof (H "image") as Hg.
  vm_compute in Hl, Hd, Hg.
  assert (l = l') as -> by (destruct l, l'; congruence).
  assert (d = d') as -> by (destruct d, d'; congruence).
  assert (g = g') as -> by (destruct g, g'; congruence).
  done.
Qed.

Lemma set_attrs_idemp inst (m : gmap string value) :
  set_attrs (set_attrs inst m) m = set_attrs inst m.
Proof.
  apply recipe_ext; [by rewrite !set_attrs_id|].
  intros a. rewrite (getattr_set_attrs (set_attrs inst m)), getattr_set_attrs.
  destruct (m !! a) as [v|]; [|done]. by destruct (fits a v).
Qed.

Lemma fits_column attr v :
  fits attr v = true → attr ≠ "tags" ∧ attr ≠ "ingredients".
Proof. intros Hf. split; intros ->; by destruct v. Qed.

(** ** [save] *)

Lemma save_Ok inst st st' :
  save inst st = (Ok tt, st') →
  inst ∈ Recipe_objects st' ∧
  (∀ r, r ∈ Recipe_objects st' → Recipe.id r = Recipe.id inst → r = inst) ∧
  (∀ r, r ∈ Recipe_objects st' → Recipe.id r ≠ Recipe.id inst → r ∈ Recipe_objects st) ∧
  next_recipe_id st' = next_recipe_id st ∧
  (∀ k, table k st' = table k st).
Proof.
  unfold save. intros [= <-]. simpl. split_and!; [| | |done|by intros []].
  - case_decide as Hin.
    + apply list_elem_of_fmap in Hin as (r & Hid & Hr).
      apply list_elem_of_fmap. exists r. by rewrite decide_True.
    + apply elem_of_app. right. apply list_elem_of_here.
  - intros r Hr Hid. case_decide as Hin.
    + apply list_elem_of_fmap in Hr as (r0 & -> & Hr0).
      by case_decide.
    + apply elem_of_app in Hr as [Hr|Hr%list_elem_of_singleton]; [|done].
      exfalso. apply Hin. rewrite <- Hid. by apply list_elem_of_fmap_2.
  - intros r Hr Hid. case_decide as Hin.
    + apply list_elem_of_fmap in Hr as (r0 & -> & Hr0).
      by case_decide.
    + apply elem_of_app in Hr as [Hr|Hr%list_elem_of_singleton]; [done|].
      by subst.
Qed.

(** Saving a row that is stored as it is changes nothing. *)
Lemma save_stored inst st :
  inst ∈ Recipe_objects st →
  (∀ r, r ∈ Recipe_objects st → Recipe.id r = Recipe.id inst → r = inst) →
  save inst st = (Ok tt, st).
Proof.
  intros Hin Huniq. unfold save. rewrite decide_True by by apply list_elem_of_fmap_2.
  f_equal. apply store_eq; simpl; try done.
  rewrite <- (list_fmap_id (Recipe_objects st)) at 2.
  apply list_fmap_ext. intros i r Hr. case_decide; [|done].
  symmetry. apply Huniq; [|done]. by eapply list_elem_of_lookup_2.
Qed.

(** The columns of the instance an [update] returns, and where it is
    stored. *)
Lemma update_Ok_columns u inst vd st inst' st' :
  update u inst vd st = (Ok inst', st') →
  (∀ attr, vd !! attr = None → getattr inst' attr = getattr inst attr) ∧
  (∀ attr v, vd !! attr = Some v → fits attr v = true →
     getattr inst' attr = Some v) ∧
  Recipe.id inst' = Recipe.id inst ∧
  inst' ∈ Recipe_objects st' ∧
  (∀ r, r ∈ Recipe_objects st' → Recipe.id r = Recipe.id inst → r = inst').
Proof.
  intros (st1 & st2 & _ & _ & -> & Hs)%update_Ok.
  apply save_Ok in Hs as (Hin & Huniq & _).
  rewrite set_attrs_id in Huniq.
  split_and!; [| |apply set_attrs_id|done|done].
  - intros attr Hnone. rewrite getattr_set_attrs.
    destruct (decide (attr = "ingredients")) as [->|H1]; [by rewrite lookup_delete_eq|].
    destruct (decide (attr = "tags")) as [->|H2].
    { by rewrite lookup_delete_ne, lookup_delete_eq. }
    by rewrite !lookup_delete_ne, Hnone.
  - intros attr v Hsome Hf. rewrite getattr_set_attrs.
    destruct (fits_column _ _ Hf) as [H1 H2].
    by rewrite !lookup_delete_ne, Hsome, Hf.
Qed.

(** C7.  For every [update] that returns: a column whose name is absent
    from the validated data keeps the value it had on the instance; a
    column the validated data gives a fitting value has that value; and
    the returned instance is the row stored under its primary key. *)
Theorem update_scalar_frame u inst vd st inst' st' :
  update u inst vd st = (Ok inst', st') →
  (∀ attr, vd !! attr = None → getattr inst' attr = getattr inst attr) ∧
  (∀ attr v, vd !! attr = Some v → fits attr v = true →
     getattr inst' attr = Some v) ∧
  Recipe.id inst' = Recipe.id inst ∧
  inst' ∈ Recipe_objects st' ∧
  (∀ r, r ∈ Recipe_objects st' → Recipe.id r = Recipe.id inst → r = inst').
Proof. apply update_Ok_columns. Qed.

Lemma update_scalar_frame_witness :
  ∃ inst' st',
    update 1 sample_recipe (<["title" := VStr "New recipe title"]> ∅) sample_store
      = (Ok inst', st') ∧
    getattr inst' "title" = Some (VStr "New recipe title") ∧
    getattr inst' "link" = getattr sample_recipe "link" ∧
    getattr inst' "user" = getattr sample_recipe "user" ∧
    inst' ∈ Recipe_objects st'.
Proof.
  eexists _, _. split; [vm_compute; reflexivity|].
  match goal with |- context [getattr ?i "title"] => set (inst' := i) end.
  match goal with |- context [inst' ∈ Recipe_objects ?s] => set (st' := s) end.
  destruct (update_scalar_frame 1 sample_recipe (<["title" := VStr "New recipe title"]> ∅)
              sample_store inst' st') as (Habs & Hpres & _ & Hin & _).
  - vm_compute. reflexivity.
  - split_and!; [by apply Hpres | by apply Habs | by apply Habs | exact Hin].
Defined.

(** ** What leaves the recipe table alone *)

Lemma keeps_recipes_ret {A} (a : A) : keeps_recipes (ret a).
Proof. done. Qed.

Lemma keeps_recipes_raise {A} e : keeps_recipes (@raise A e).
Proof. done. Qed.

Lemma keeps_recipes_bind {A B} (m : M A) (f : A → M B) :
  keeps_recipes m → (∀ a, keeps_recipes (f a)) → keeps_recipes (bind m f).
Proof.
  intros Hm Hf st. unfold bind. specialize (Hm st).
  destruct (m st) as [[a|e] st1]; simpl in *; [|done].
  by rewrite Hf.
Qed.

Lemma keeps_recipes_get_or_create k u n : keeps_recipes (get_or_create k u n).
Proof.
  intros st. unfold get_or_create.
  destruct (matching u n (rows (table k st))) as [|r [|r' l]]; simpl; try done.
  apply Recipe_objects_set_table.
Qed.

Lemma keeps_recipes_add k rid oid : keeps_recipes (add k rid oid).
Proof. intros st. apply Recipe_objects_set_table. Qed.

Lemma keeps_recipes_clear k rid : keeps_recipes (clear k rid).
Proof. intros st. apply Recipe_objects_set_table. Qed.

Lemma keeps_recipes_for_each {A} (l : list A) body :
  (∀ x, keeps_recipes (body x)) → keeps_recipes (for_each l body).
Proof.
  intros Hb. induction l as [|x l IH]; simpl; [apply keeps_recipes_ret|].
  apply keeps_recipes_bind; auto.
Qed.

Lemma keeps_recipes_related k u inst v :
  keeps_recipes (get_or_create_related k u inst v).
Proof.
  unfold get_or_create_related.
  assert (Hb : ∀ name, keeps_recipes
            (do '(obj, created) <- get_or_create k u name;
             add k (Recipe.id inst) (Row.id obj))).
  { intros name. apply keeps_recipes_bind; [apply keeps_recipes_get_or_create|].
    intros [obj c]. apply keeps_recipes_add. }
  destruct v as [|s| | | |names]; simpl; try apply keeps_recipes_raise.
  - destruct s; [apply keeps_recipes_ret | apply keeps_recipes_raise].
  - by apply keeps_recipes_for_each.
Qed.

Lemma keeps_recipes_relink k u inst v : keeps_recipes (relink k u inst v).
Proof.
  unfold relink. destruct (is_not_None v); [|apply keeps_recipes_ret].
  apply keeps_recipes_bind; [apply keeps_recipes_clear|].
  intros _. apply keeps_recipes_related.
Qed.

(** An [update] that raises has not written the recipe table. *)
Lemma update_Raise u inst vd st e st' :
  update u inst vd st = (Raise e, st') → Recipe_objects st' = Recipe_objects st.
Proof.
  rewrite update_unfold. unfold bind at 1.
  pose proof (keeps_recipes_relink KIngredient u inst
                (default VNone (vd !! "ingredients")) st) as H1.
  destruct (relink KIngredient u inst _ st) as [[[]|e1] st1]; simpl in H1.
  - unfold bind at 1.
    pose proof (keeps_recipes_relink KTag u inst
                  (default VNone (vd !! "tags")) st1) as H2.
    destruct (relink KTag u inst _ st1) as [[[]|e2] st2]; simpl in H2.
    + discriminate.
    + intros [= <- <-]. congruence.
  - intros [= <- <-]. done.
Qed.

(** ** Validation *)

Lemma to_internal_value_Ok fields data vd :
  to_internal_value fields data = Ok vd →
  ∀ f v, vd !! f = Some v →
    data !! f = Some v ∧ f ∈ fields ∧ (f ∉ Meta_read_only_fields) ∧
    field_accepts f v = true.
Proof.
  unfold to_internal_value. case_decide as Hall; [|discriminate].
  intros [= <-] f v Hf. specialize (Hall f v Hf). simpl in Hall.
  apply map_lookup_filter_Some in Hf as [Hd Hw]. simpl in Hw.
  apply list_elem_of_filter in Hw as [? ?]. done.
Qed.

(** A key that is no declared field of the serializer does not reach the
    validated data, whatever the payload holds under it. *)
Lemma to_internal_value_ignores fields (data : gmap string value) key v :
  key ∉ fields →
  to_internal_value fields (<[key := v]> data) = to_internal_value fields data.
Proof.
  intros Hkey. unfold to_internal_value.
  assert (Heq : filter (λ kv : string * value,
                   kv.1 ∈ filter (λ f, f ∉ Meta_read_only_fields) fields) (<[key := v]> data)
                = filter (λ kv : string * value,
                   kv.1 ∈ filter (λ f, f ∉ Meta_read_only_fields) fields) data).
  { apply map_eq. intros f. apply option_eq. intros x.
    rewrite !map_lookup_filter_Some. simpl.
    destruct (decide (f = key)) as [->|Hne].
    - rewrite list_elem_of_filter. tauto.
    - by rewrite lookup_insert_ne. }
  by rewrite Heq.
Qed.

Lemma user_not_a_field fields :
  fields = Meta_fields ∨ fields = Detail_Meta_fields → "user" ∉ fields.
Proof.
  intros [->| ->]; apply (bool_decide_unpack _); vm_compute; exact I.
Qed.

(** C5.  With either serializer of the module ("user" is no field of
    [Meta.fields]), for every instance and every payload: a "user" entry
    of the payload changes nothing in what validation and [update] do;
    when they return, the returned instance and every row stored under its
    primary key have the owner the instance had; when they raise, the
    recipe table is as it was. *)
Theorem update_keeps_owner fields u inst data st :
  fields = Meta_fields ∨ fields = Detail_Meta_fields →
  (∀ v, save_existing fields u inst (<["user" := v]> data) st
        = save_existing fields u inst data st) ∧
  (∀ inst' st', save_existing fields u inst data st = (Ok inst', st') →
     Recipe.user inst' = Recipe.user inst ∧
     inst' ∈ Recipe_objects st' ∧
     ∀ r, r ∈ Recipe_objects st' → Recipe.id r = Recipe.id inst →
          Recipe.user r = Recipe.user inst) ∧
  (∀ e st', save_existing fields u inst data st = (Raise e, st') →
     Recipe_objects st' = Recipe_objects st).
Proof.
  intros Hfields%user_not_a_field. unfold save_existing. split_and!.
  - intros v. by rewrite to_internal_value_ignores.
  - intros inst' st'. destruct (to_internal_value fields data) as [vd|e] eqn:Hv;
      [|discriminate].
    intros H.
    assert (Hnone : vd !! "user" = None).
    { destruct (vd !! "user") as [v|] eqn:Hu; [|done].
      by apply (to_internal_value_Ok _ _ _ Hv) in Hu as (_ & ? & _). }
    apply update_Ok_columns in H as (Habs & _ & Hid & Hin & Huniq).
    specialize (Habs "user" Hnone). injection Habs as Huser.
    split_and!; [done | done |].
    intros r Hr Hrid. by rewrite (Huniq r Hr Hrid).
  - intros e st'. destruct (to_internal_value fields data) as [vd|e'] eqn:Hv.
    + apply update_Raise.
    + by intros [= <- <-].
Qed.

Lemma update_keeps_owner_witness :
  ∃ inst' st',
    save_existing Detail_Meta_fields 1 sample_recipe
      (<["user" := VInt 2]> (<["title" := VStr "Mine now"]> ∅)) sample_store
      = (Ok inst', st') ∧
    Recipe.user inst' = 1 ∧
    ∀ r, r ∈ Recipe_objects st' → Recipe.id r = 1 → Recipe.user r = 1.
Proof.
  eexists _, _. split; [vm_compute; reflexivity|].
  match goal with |- Recipe.user ?i = _ ∧ (∀ r, r ∈ Recipe_objects ?s → _) =>
    set (inst' := i); set (st' := s) end.
  destruct (update_keeps_owner Detail_Meta_fields 1 sample_recipe
              (<["user" := VInt 2]> (<["title" := VStr "Mine now"]> ∅)) sample_store)
    as (_ & Hok & _).
  - by right.
  - destruct (Hok inst' st') as (Hu & _ & Hrows); [vm_compute; reflexivity|].
    split; [exact Hu | exact Hrows].
Defined.

(** ** Running [update] again *)

(** The blocks of [update] look at the instance's primary key only. *)
Lemma relink_id_ext k u inst inst2 v st :
  Recipe.id inst = Recipe.id inst2 → relink k u inst v st = relink k u inst2 v st.
Proof.
  intros Hid. unfold relink, get_or_create_related. by rewrite Hid.
Qed.

(** ** Running the loop again *)

(** The three things one iteration can do. *)
Lemma loop_body_cases k u inst n st :
  let T := table k st in
  let rid := Recipe.id inst in
  (matching u n (rows T) = [] ∧
   loop_body k u inst n st =
     (Ok tt, set_table k (mkTable (rows T ++ [Row.mk (next_id T) u n])
                            ({[ (rid, next_id T) ]} ∪ links T) (S (next_id T))) st)) ∨
  (∃ r, matching u n (rows T) = [r] ∧
   loop_body k u inst n st =
     (Ok tt, set_table k (mkTable (rows T) ({[ (rid, Row.id r) ]} ∪ links T) (next_id T)) st)) ∨
  (1 < length (matching u n (rows T)) ∧
   loop_body k u inst n st = (Raise MultipleObjectsReturned, st)).
Proof.
  simpl. unfold loop_body, bind, get_or_create, add.
  destruct (matching u n (rows (table k st))) as [|r [|r' l]] eqn:Hm.
  - left. split; [done|]. rewrite table_set_table_eq, set_table_set_table. done.
  - right; left. exists r. done.
  - right; right. split; [simpl; lia | done].
Qed.

(** Whatever the loop did, returning or raising, it does again on any
    store that already has the rows it left: the same outcome, no new row,
    and the same associations added. *)
Lemma for_each_loop_replay k u inst l s0 res s1 :
  for_each l (loop_body k u inst) s0 = (res, s1) →
  ∃ L : gset (nat * nat),
    links (table k s1) = L ∪ links (table k s0) ∧
    (∀ p, p ∈ L → p.1 = Recipe.id inst) ∧
    s1 = set_table k (table k s1) s0 ∧
    (∀ u' n', matching u' n' (rows (table k s0)) ≠ [] →
       matching u' n' (rows (table k s1)) = matching u' n' (rows (table k s0))) ∧
    ∀ s0',
      rows (table k s0') = rows (table k s1) →
      next_id (table k s0') = next_id (table k s1) →
      for_each l (loop_body k u inst) s0' =
        (res, set_table k (mkTable (rows (table k s1)) (L ∪ links (table k s0'))
                             (next_id (table k s1))) s0').
Proof.
  revert s0. induction l as [|n l IH]; intros s0 H; simpl in H.
  - injection H as <- <-. exists ∅. split_and!.
    + by rewrite (left_id_L ∅ (∪)).
    + intros p Hp. by apply not_elem_of_empty in Hp.
    + by rewrite set_table_table.
    + done.
    + intros s0' Hrows Hnext. simpl. unfold ret. f_equal.
      rewrite (left_id_L ∅ (∪)), <- Hrows, <- Hnext.
      destruct (table k s0') eqn:HT. simpl. rewrite <- HT. by rewrite set_table_table.
  - destruct (loop_body_cases k u inst n s0) as [[Hm Hb]|[(r & Hm & Hb)|[Hm Hb]]];
      simpl in Hb.
    + (* a row is created and linked *)
      erewrite bind_run_Ok in H by exact Hb.
      apply IH in H as (L & Hlinks & HL & Hs1 & Hst & Hreplay).
      rewrite table_set_table_eq in Hlinks, Hst. simpl in Hlinks, Hst.
      set (r := Row.mk (next_id (table k s0)) u n) in *.
      assert (Hmr : matching u n (rows (table k s1)) = [r]).
      { rewrite Hst; rewrite matching_app, Hm, matching_singleton; simpl;
          rewrite decide_True by done; done. }
      exists ({[ (Recipe.id inst, next_id (table k s0)) ]} ∪ L). split_and!.
      * rewrite Hlinks. rewrite (assoc_L (∪)). f_equal. apply (comm_L (∪)).
      * intros p [->%elem_of_singleton|Hp]%elem_of_union; [done | by apply HL].
      * rewrite Hs1 at 1. by rewrite set_table_set_table.
      * intros u' n' Hne. rewrite Hst.
        -- rewrite matching_app, matching_singleton.
           rewrite decide_False; [by rewrite app_nil_r|].
           simpl. intros [-> ->]. done.
        -- rewrite matching_app. by destruct (matching u' n' (rows (table k s0))).
      * intros s0' Hrows Hnext. simpl.
        destruct (loop_body_cases k u inst n s0') as [[Hm' _]|[(r' & Hm' & Hb')|[Hm' _]]];
          rewrite Hrows, Hmr in Hm'; [done| |simpl in Hm'; lia].
        simpl in Hb'. injection Hm' as <-.
        erewrite bind_run_Ok by exact Hb'.
        rewrite Hreplay; rewrite ?table_set_table_eq; simpl; [|done|done].
        rewrite set_table_set_table. do 3 f_equal.
        rewrite (assoc_L (∪)). f_equal. apply (comm_L (∪)).
    + (* an existing row is linked *)
      erewrite bind_run_Ok in H by exact Hb.
      apply IH in H as (L & Hlinks & HL & Hs1 & Hst & Hreplay).
      rewrite table_set_table_eq in Hlinks, Hst. simpl in Hlinks, Hst.
      assert (Hmr : matching u n (rows (table k s1)) = [r]).
      { rewrite Hst; rewrite Hm; done. }
      exists ({[ (Recipe.id inst, Row.id r) ]} ∪ L). split_and!.
      * rewrite Hlinks. rewrite (assoc_L (∪)). f_equal. apply (comm_L (∪)).
      * intros p [->%elem_of_singleton|Hp]%elem_of_union; [done | by apply HL].
      * rewrite Hs1 at 1. by rewrite set_table_set_table.
      * done.
      * intros s0' Hrows Hnext. simpl.
        destruct (loop_body_cases k u inst n s0') as [[Hm' _]|[(r' & Hm' & Hb')|[Hm' _]]];
          rewrite Hrows, Hmr in Hm'; [done| |simpl in Hm'; lia].
        simpl in Hb'. injection Hm' as <-.
        erewrite bind_run_Ok by exact Hb'.
        rewrite Hreplay; rewrite ?table_set_table_eq; simpl; [|done|done].
        rewrite set_table_set_table. do 3 f_equal.
        rewrite (assoc_L (∪)). f_equal. apply (comm_L (∪)).
    + (* the call raises *)
      erewrite bind_run_Raise in H by exact Hb. injection H as <- <-.
      exists ∅. split_and!.
      * by rewrite (left_id_L ∅ (∪)).
      * intros p Hp. by apply not_elem_of_empty in Hp.
      * by rewrite set_table_table.
      * done.
      * intros s0' Hrows Hnext. simpl.
        destruct (loop_body_cases k u inst n s0') as [[Hm' _]|[(r' & Hm' & _)|[_ Hb']]];
          [rewrite Hrows in Hm'; rewrite Hm' in Hm; simpl in Hm; lia ..|].
        simpl in Hb'.
        erewrite bind_run_Raise by exact Hb'. f_equal.
        rewrite (left_id_L ∅ (∪)), <- Hrows, <- Hnext.
        destruct (table k s0') eqn:HT. simpl. rewrite <- HT. by rewrite set_table_table.
Qed.

Lemma clear_run k rid st :
  clear k rid st =
    (Ok tt, set_table k (mkTable (rows (table k st))
                           (filter (λ p, p.1 ≠ rid) (links (table k st)))
                           (next_id (table k st))) st).
Proof. reflexivity. Qed.

(** A guarded block of [update], run on a store that already has the
    table the block left, does what it did and leaves the store as it is. *)
Lemma relink_fixpoint k u inst v sa res sb :
  relink k u inst v sa = (res, sb) →
  sb = set_table k (table k sb) sa ∧
  ∀ sc, table k sc = table k sb → relink k u inst v sc = (res, sc).
Proof.
  unfold relink. destruct (is_not_None v) eqn:Hv.
  - erewrite bind_run_Ok by apply clear_run.
    set (s0 := set_table k _ sa).
    assert (Hplain : ∀ r0 : result unit,
              (∀ s, get_or_create_related k u inst v s = (r0, s)) →
              get_or_create_related k u inst v s0 = (res, sb) →
              sb = set_table k (table k sb) sa ∧
              ∀ sc, table k sc = table k sb →
                (clear k (Recipe.id inst);; get_or_create_related k u inst v) sc = (res, sc)).
    { intros r0 Hr0 H. rewrite Hr0 in H. injection H as <- <-. split.
      - unfold s0. by rewrite table_set_table_eq.
      - intros sc Hsc. erewrite bind_run_Ok by apply clear_run. rewrite Hr0. f_equal.
        rewrite Hsc. unfold s0. rewrite table_set_table_eq. simpl.
        rewrite <- (set_table_table k sc) at 2. rewrite Hsc.
        unfold s0. rewrite table_set_table_eq. f_equal. f_equal.
        apply set_eq. intros p. rewrite !elem_of_filter. tauto. }
    destruct v as [|s| | | |l]; try discriminate;
      try (apply (Hplain (Raise TypeError)); intros; reflexivity).
    + destruct s; [apply (Hplain (Ok tt)) | apply (Hplain (Raise TypeError))];
        intros; reflexivity.
    + clear Hplain. intros H.
      change (for_each l (loop_body k u inst) s0 = (res, sb)) in H.
      apply for_each_loop_replay in H as (L & Hlinks & HL & Hs1 & _ & Hreplay).
      unfold s0 in Hlinks, Hs1. rewrite table_set_table_eq in Hlinks. simpl in Hlinks.
      rewrite set_table_set_table in Hs1. split; [done|].
      intros sc Hsc. erewrite bind_run_Ok by apply clear_run.
      cbv beta. rewrite get_or_create_related_specs, Hreplay;
        rewrite ?table_set_table_eq; simpl; [|by rewrite Hsc|by rewrite Hsc].
      rewrite set_table_set_table. f_equal.
      transitivity (set_table k (table k sc) sc); [|apply set_table_table].
      f_equal. rewrite Hsc.
      apply table_eq; simpl; [done| |done].
      rewrite Hlinks. apply set_eq. intros p.
      rewrite !elem_of_union, !elem_of_filter, !elem_of_union, !elem_of_filter.
      split.
      * intros [?|[Hne [?|[_ ?]]]]; [tauto | by apply HL in H | tauto].
      * intros [?|[? ?]]; [tauto|]. right. tauto.
  - intros [= <- <-]. split; [by rewrite set_table_table|]. done.
Qed.

(** [update], run again on the store it left, with an instance of the
    same primary key that the validated data bring to the same columns,
    does what it did and leaves the store as it is. *)
Lemma update_replay u inst vd st res st' inst2 :
  update u inst vd st = (res, st') →
  Recipe.id inst2 = Recipe.id inst →
  set_attrs inst2 (delete "ingredients" (delete "tags" vd))
    = set_attrs inst (delete "ingredients" (delete "tags" vd)) →
  update u inst2 vd st' = (res, st').
Proof.
  intros H Hid Hattrs. rewrite update_unfold in *. rewrite Hattrs.
  set (inst' := set_attrs inst _) in *.
  assert (Hext : ∀ k v s, relink k u inst2 v s = relink k u inst v s).
  { intros. by apply relink_id_ext. }
  unfold bind at 1 in H. unfold bind at 1. rewrite Hext.
  destruct (relink KIngredient u inst _ st) as [[[]|e1] st1] eqn:H1.
  - apply relink_fixpoint in H1 as [Hs1 Hfix1].
    unfold bind at 1 in H.
    destruct (relink KTag u inst _ st1) as [[[]|e2] st2] eqn:H2.
    + apply relink_fixpoint in H2 as [Hs2 Hfix2].
      unfold bind at 1 in H. destruct (save inst' st2) as [[[]|e3] st3] eqn:H3;
        [|discriminate].
      injection H as <- <-.
      pose proof (save_Ok _ _ _ H3) as (Hin & Huniq & _ & _ & Htab).
      rewrite Hfix1.
      2:{ rewrite Htab, Hs2. by rewrite table_set_table_ne. }
      unfold bind at 1. rewrite Hext, Hfix2 by apply Htab.
      erewrite bind_run_Ok; [|by apply save_stored]. done.
    + injection H as <- <-. rewrite Hfix1.
      2:{ apply relink_fixpoint in H2 as [Hs2 _]. rewrite Hs2.
          by rewrite table_set_table_ne. }
      unfold bind at 1. rewrite Hext.
      apply relink_fixpoint in H2 as [_ Hfix2]. by rewrite Hfix2.
  - injection H as <- <-. apply relink_fixpoint in H1 as [_ Hfix1]. by rewrite Hfix1.
Qed.

(** C10.  [update] is idempotent: run again on the store it left, with
    the same validated data, it has the same outcome and leaves the store
    as it is, whether it returned or raised.  In particular, when it
    returned, applying it to the instance it returned gives that instance
    again, adds no Tag or Ingredient row and changes no association. *)
Theorem update_idempotent u inst vd st :
  update u inst vd (update u inst vd st).2 = update u inst vd st ∧
  ∀ inst' st', update u inst vd st = (Ok inst', st') →
    update u inst' vd st' = (Ok inst', st') ∧
    ∀ k, rows (table k (update u inst' vd st').2) = rows (table k st') ∧
         related k (update u inst' vd st').2 (Recipe.id inst)
           = related k st' (Recipe.id inst).
Proof.
  split.
  - destruct (update u inst vd st) as [res st'] eqn:H. simpl.
    by apply (update_replay u inst vd st).
  - intros inst' st' H.
    assert (H2 : update u inst' vd st' = (Ok inst', st')).
    { pose proof H as (_ & _ & _ & _ & -> & _)%update_Ok.
      apply (update_replay u inst vd st); [done | apply set_attrs_id |].
      apply set_attrs_idemp. }
    split; [done|]. by rewrite H2.
Qed.

Lemma update_idempotent_witness :
  ∃ inst' st',
    update 1 sample_recipe
      (<["tags" := VSpecs ["Indian"; "Dinner"; "Indian"]]>
         (<["title" := VStr "New recipe title"]> ∅)) sample_store = (Ok inst', st') ∧
    update 1 inst'
      (<["tags" := VSpecs ["Indian"; "Dinner"; "Indian"]]>
         (<["title" := VStr "New recipe title"]> ∅)) st' = (Ok inst', st').
Proof.
  eexists _, _. split; [vm_compute; reflexivity|].
  match goal with |- update _ ?i _ ?s = _ => set (inst' := i); set (st' := s) end.
  refine (proj1 (proj2 (update_idempotent 1 sample_recipe _ sample_store) inst' st' _)).
  vm_compute. reflexivity.
Defined.

(** ** The query layer *)

Lemma entity_ids_wf ek st :
  store_wf st → NoDup (entity_id <$> entities ek st).
Proof.
  intros (Ht & Hi & Hr & _). destruct ek as [|k]; simpl.
  - by rewrite <- list_fmap_compose.
  - rewrite <- list_fmap_compose. destruct k; [apply Ht | apply Hi].
Qed.

(** Asking for another owner's entity by id finds nothing. *)
Lemma get_owned_other ek a b e st :
  store_wf st → e ∈ entities ek st → entity_owner e = a → a ≠ b →
  get_owned ek b (entity_id e) st = (Raise NotFound, st).
Proof.
  intros Hwf He Ha Hab. unfold get_owned.
  destruct (filter _ (entities ek st)) as [|x l] eqn:Hf; [done|].
  exfalso.
  assert (Hx : x ∈ filter (λ e0, entity_id e0 = entity_id e ∧ entity_owner e0 = b)
                 (entities ek st)) by (rewrite Hf; apply list_elem_of_here).
  apply list_elem_of_filter in Hx as [[Hid Hb] Hx].
  assert (x = e) as -> by (eapply NoDup_fmap_eq; eauto using entity_ids_wf).
  congruence.
Qed.

(** C4.  On a well-formed store, for distinct owners [a] and [b] and an
    entity of any kind owned by [a]: every request of [b] that names the
    entity by id (retrieve, update, delete) raises NotFound, the only
    refusal there is, and leaves the store, the entity in it, as it was. *)
Theorem cross_owner_not_found order_by req ek a b e st :
  store_wf st →
  e ∈ entities ek st →
  entity_owner e = a →
  a ≠ b →
  names_entity req = Some (ek, b, entity_id e) →
  handle order_by req st = (Raise NotFound, st) ∧
  e ∈ entities ek (handle order_by req st).2.
Proof.
  intros Hwf He Ha Hab Hreq.
  assert (H : handle order_by req st = (Raise NotFound, st)).
  { pose proof (get_owned_other ek a b e st Hwf He Ha Hab) as Hg.
    destruct req; simpl in Hreq; try discriminate;
      injection Hreq as ? ? ?; subst; simpl; unfold bind; by rewrite Hg. }
  by rewrite H.
Qed.

Lemma cross_owner_not_found_witness :
  handle id (Destroy EKRecipe 1 3) sample_store = (Raise NotFound, sample_store) ∧
  ERecipe (Recipe.mk 3 2 "Soup" 40 300 None None None)
    ∈ entities EKRecipe (handle id (Destroy EKRecipe 1 3) sample_store).2.
Proof.
  apply (cross_owner_not_found id (Destroy EKRecipe 1 3) EKRecipe 2 1
           (ERecipe (Recipe.mk 3 2 "Soup" 40 300 None None None)) sample_store).
  - exact sample_store_wf.
  - simpl. repeat constructor.
  - reflexivity.
  - lia.
  - reflexivity.
Defined.

Lemma NoDup_count {A} `{EqDecision A} (l : list A) x :
  NoDup l → x ∈ l → length (filter (λ y, y = x) l) = 1.
Proof.
  induction l as [|a l IH]; [by intros _ ?%elem_of_nil|].
  intros [Hnotin Hnd]%NoDup_cons Hx. rewrite filter_cons.
  destruct (decide (a = x)) as [->|Hne].
  - simpl. f_equal. apply length_zero_iff_nil, elem_of_nil_inv.
    intros y [-> Hy]%list_elem_of_filter. done.
  - apply elem_of_cons in Hx as [->|Hx]; [done|]. by apply IH.
Qed.

(** The assigned-only listing before ordering. *)
Lemma elem_of_assigned_listing k owner st r :
  r ∈ remove_dups
        (filter (λ r, Row.user r = owner) (rows (table k st)) ≫=
           λ r, (λ _, r) <$> assigned_to k st r) ↔
  r ∈ rows (table k st) ∧ Row.user r = owner ∧
  ∃ rc, rc ∈ Recipe_objects st ∧ (Recipe.id rc, Row.id r) ∈ links (table k st).
Proof.
  rewrite elem_of_remove_dups, list_elem_of_bind. split.
  - intros (r0 & Hin & [Hu Hr0]%list_elem_of_filter).
    apply list_elem_of_fmap in Hin as (rc & -> & Hrc).
    apply list_elem_of_filter in Hrc as [Hl Hrc]. eauto.
  - intros (Hr & Hu & rc & Hrc & Hl). exists r. split.
    + apply list_elem_of_fmap. exists rc. split; [done|].
      by apply list_elem_of_filter.
    + by apply list_elem_of_filter.
Qed.

(** C6.  For every owner and either kind, whatever the listing order: the
    listing with [assigned_only] returns only rows of the owner that some
    recipe is associated with, and returns each such row exactly once,
    however many recipes are associated with it. *)
Theorem assigned_only_listing order_by k owner st :
  (∀ l, order_by l ≡ₚ l) →
  (∀ e, e ∈ list_entities order_by (EKNamed k) owner true st →
     ∃ r, e = ENamed k r ∧ r ∈ rows (table k st) ∧ Row.user r = owner ∧
          ∃ rc, rc ∈ Recipe_objects st ∧
                (Recipe.id rc, Row.id r) ∈ links (table k st)) ∧
  (∀ r, r ∈ rows (table k st) → Row.user r = owner →
     (∃ rc, rc ∈ Recipe_objects st ∧
            (Recipe.id rc, Row.id r) ∈ links (table k st)) →
     length (filter (λ x, x = ENamed k r)
               (list_entities order_by (EKNamed k) owner true st)) = 1).
Proof.
  intros Hperm. unfold list_entities. split.
  - intros e. rewrite Hperm. intros (r & -> & Hr)%list_elem_of_fmap.
    apply elem_of_assigned_listing in Hr as (? & ? & ?). eauto.
  - intros r Hr Hu Hrc. rewrite Hperm. apply NoDup_count.
    + apply NoDup_fmap_2_strong; [|apply NoDup_remove_dups].
      by intros x y _ _ [= ->].
    + apply list_elem_of_fmap_2. by apply elem_of_assigned_listing.
Qed.

Lemma assigned_only_listing_witness :
  list_entities reverse (EKNamed KTag) 1 true sample_store
    = [ENamed KTag (Row.mk 1 1 "Breakfast")] ∧
  length (assigned_to KTag sample_store (Row.mk 1 1 "Breakfast")) = 2 ∧
  length (filter (λ x, x = ENamed KTag (Row.mk 1 1 "Breakfast"))
            (list_entities reverse (EKNamed KTag) 1 true sample_store)) = 1.
Proof.
  split_and!; [vm_compute; reflexivity | vm_compute; reflexivity |].
  apply (assigned_only_listing reverse KTag 1 sample_store).
  - apply reverse_Permutation.
  - simpl. repeat constructor.
  - reflexivity.
  - exists sample_recipe. split; [simpl; repeat constructor|].
    apply (bool_decide_unpack _). vm_compute. exact I.
Defined.

(** Requests that only read leave the store as it is. *)
Lemma read_keeps_store order_by req st :
  is_read req = true → (handle order_by req st).2 = st.
Proof.
  destruct req; try discriminate; intros _; simpl; [done|].
  unfold bind, get_owned.
  by destruct (filter _ (entities ek st)).
Qed.

Lemma serve_reads order_by reqs st :
  Forall (λ req, is_read req = true) reqs → serve order_by reqs st = st.
Proof.
  induction 1 as [|req reqs Hreq _ IH]; simpl; [done|].
  by rewrite read_keeps_store.
Qed.

(** ** Well-formedness is an invariant of the request handler *)

Lemma hoare_ret {A} (a : A) (Q : A → Store → Prop) E : hoare (Q a) (ret a) Q E.
Proof. by intros st H. Qed.

Lemma hoare_raise {A} e (P : Store → Prop) (Q : A → Store → Prop) (E : Store → Prop) :
  (∀ st, P st → E st) → hoare P (raise e) Q E.
Proof. intros H st HP. by apply H. Qed.

Lemma hoare_bind {A B} (m : M A) (f : A → M B) P Q R E :
  hoare P m Q E → (∀ a, hoare (Q a) (f a) R E) → hoare P (bind m f) R E.
Proof.
  intros Hm Hf st HP. unfold bind. specialize (Hm st HP).
  destruct (m st) as [[a|e] st1]; [by apply Hf | done].
Qed.

Lemma hoare_weaken {A} (m : M A) (P P' : Store → Prop) Q (Q' : A → Store → Prop)
    (E E' : Store → Prop) :
  hoare P m Q E → (∀ st, P' st → P st) → (∀ a st, Q a st → Q' a st) →
  (∀ st, E st → E' st) → hoare P' m Q' E'.
Proof.
  intros H HP HQ HE st HP'. specialize (H st (HP st HP')).
  destruct (m st) as [[a|e] st1]; auto.
Qed.

Lemma hoare_for_each {A} (l : list A) body (Inv : Store → Prop) :
  (∀ x, hoare Inv (body x) (λ _, Inv) Inv) →
  hoare Inv (for_each l body) (λ _, Inv) Inv.
Proof.
  intros Hb. induction l as [|x l IH]; simpl.
  - by intros st H.
  - eapply hoare_bind; [apply Hb|]. intros ?. apply IH.
Qed.

Lemma store_wf_set_table k T st :
  store_wf st → table_wf T →
  set_Forall (λ p, p.1 < next_recipe_id st) (links T) →
  store_wf (set_table k T st).
Proof.
  intros (Ht & Hi & Hn & Hlt & Hlt' & Hli) HT HL.
  destruct k; simpl; split_and!; done.
Qed.

Lemma table_wf_rows T T' :
  rows T' = rows T → next_id T' = next_id T → table_wf T → table_wf T'.
Proof. unfold table_wf. by intros -> ->. Qed.

Lemma hoare_get_or_create k u n rid :
  hoare (wf_with rid) (get_or_create k u n) (λ _, wf_with rid) (wf_with rid).
Proof.
  intros st [Hwf Hrid]. unfold get_or_create.
  destruct (matching u n (rows (table k st))) as [|r [|r' l]]; try done.
  split; [|by rewrite next_recipe_id_set_table].
  apply store_wf_set_table; [done | | ].
  - by apply table_wf_append; [apply store_wf_table|].
  - simpl. intros p Hp. by eapply store_wf_links.
Qed.

Lemma hoare_add k rid oid :
  hoare (wf_with rid) (add k rid oid) (λ _, wf_with rid) (wf_with rid).
Proof.
  intros st [Hwf Hrid]. unfold add.
  split; [|by rewrite next_recipe_id_set_table].
  apply store_wf_set_table; [done | | ].
  - eapply table_wf_rows; [..|by apply (store_wf_table k)]; done.
  - simpl. intros p [->%elem_of_singleton|Hp]%elem_of_union; [done|].
    by eapply store_wf_links.
Qed.

Lemma hoare_clear k rid rid' :
  hoare (wf_with rid) (clear k rid') (λ _, wf_with rid) (wf_with rid).
Proof.
  intros st [Hwf Hrid]. unfold clear.
  split; [|by rewrite next_recipe_id_set_table].
  apply store_wf_set_table; [done | | ].
  - eapply table_wf_rows; [..|by apply (store_wf_table k)]; done.
  - simpl. intros p [_ Hp]%elem_of_filter. by eapply store_wf_links.
Qed.

Lemma hoare_related k u inst v :
  hoare (wf_with (Recipe.id inst)) (get_or_create_related k u inst v)
    (λ _, wf_with (Recipe.id inst)) (wf_with (Recipe.id inst)).
Proof.
  unfold get_or_create_related.
  assert (Hb : ∀ name, hoare (wf_with (Recipe.id inst))
            (do '(obj, created) <- get_or_create k u name;
             add k (Recipe.id inst) (Row.id obj))
            (λ _, wf_with (Recipe.id inst)) (wf_with (Recipe.id inst))).
  { intros name. eapply hoare_bind; [apply hoare_get_or_create|].
    intros [obj c]. apply hoare_add. }
  destruct v as [|s| | | |names]; simpl; try by apply hoare_raise.
  - destruct s; [by intros st H | by apply hoare_raise].
  - by apply hoare_for_each.
Qed.

Lemma hoare_relink k u inst v :
  hoare (wf_with (Recipe.id inst)) (relink k u inst v)
    (λ _, wf_with (Recipe.id inst)) (wf_with (Recipe.id inst)).
Proof.
  unfold relink. destruct (is_not_None v); [|by intros st H].
  eapply hoare_bind; [apply hoare_clear|]. intros ?. apply hoare_related.
Qed.

Lemma hoare_save inst :
  hoare (wf_with (Recipe.id inst)) (save inst) (λ _, store_wf) store_wf.
Proof.
  intros st [(Ht & Hi & Hnd & Hlt & Hlt' & Hli) Hrid]. unfold save.
  split_and!; simpl; try done.
  - case_decide as Hin.
    + rewrite <- list_fmap_compose.
      erewrite list_fmap_ext; [exact Hnd|]. intros i r _. simpl. by case_decide.
    + rewrite fmap_app. apply NoDup_app. split_and!; [done| |apply NoDup_singleton].
      intros i Hi' ->%list_elem_of_singleton. done.
  - case_decide as Hin.
    + apply Forall_fmap. eapply Forall_impl; [exact Hlt|].
      intros r Hr. simpl in *. by case_decide.
    + apply Forall_app. split; [done|]. by apply Forall_singleton.
Qed.

Lemma hoare_update u inst vd :
  hoare (wf_with (Recipe.id inst)) (update u inst vd) (λ _, store_wf) store_wf.
Proof.
  rewrite update_unfold.
  eapply hoare_bind.
  { eapply hoare_weaken; [apply hoare_relink|..]; [done|done|by intros st []]. }
  intros ?. eapply hoare_bind.
  { eapply hoare_weaken; [apply hoare_relink|..]; [done|done|by intros st []]. }
  intros ?. eapply hoare_bind.
  { eapply hoare_weaken; [apply (hoare_save (set_attrs inst _))|..]; [|done|done].
    by rewrite set_attrs_id. }
  intros ?. by intros st H.
Qed.

Lemma hoare_Recipe_objects_create kwargs :
  hoare store_wf (Recipe_objects_create kwargs)
    (λ r, wf_with (Recipe.id r)) store_wf.
Proof.
  intros st Hwf. unfold Recipe_objects_create. case_decide; [|done].
  destruct (kwargs !! "user") as [[]|]; try done.
  destruct (kwargs !! "title") as [[]|]; try done.
  destruct (kwargs !! "time_minutes") as [[]|]; try done.
  destruct (kwargs !! "price") as [[]|]; try done.
  destruct Hwf as (Ht & Hi & Hnd & Hlt & Hlt' & Hli).
  split; [|simpl; lia]. split_and!; simpl; try done.
  - rewrite fmap_app. apply NoDup_app. split_and!; [done| |apply NoDup_singleton].
    intros i (r & -> & Hr)%list_elem_of_fmap Heq%list_elem_of_singleton.
    rewrite Forall_forall in Hlt. specialize (Hlt _ Hr). simpl in *. lia.
  - apply Forall_app. split.
    + eapply Forall_impl; [exact Hlt|]. intros; simpl in *; lia.
    + apply Forall_singleton. simpl. lia.
  - intros p Hp. specialize (Hlt' p Hp). simpl in *. lia.
  - intros p Hp. specialize (Hli p Hp). simpl in *. lia.
Qed.

Lemma hoare_create u vd :
  hoare store_wf (create u vd) (λ _, store_wf) store_wf.
Proof.
  rewrite create_unfold.
  eapply hoare_bind; [apply hoare_Recipe_objects_create|].
  intros r. eapply hoare_bind.
  { eapply hoare_weaken; [apply hoare_related|..]; [done|done|by intros st []]. }
  intros ?. eapply hoare_bind.
  { eapply hoare_weaken; [apply hoare_related|..]; [done|done|by intros st []]. }
  intros ?. by intros st [].
Qed.

Lemma hoare_get_owned ek owner id :
  hoare store_wf (get_owned ek owner id)
    (λ e st, store_wf st ∧ e ∈ entities ek st) store_wf.
Proof.
  intros st Hwf. unfold get_owned.
  destruct (filter _ (entities ek st)) as [|e l] eqn:Hf; [done|].
  split; [done|].
  assert (He : e ∈ filter (λ e0, entity_id e0 = id ∧ entity_owner e0 = owner)
                 (entities ek st)) by (rewrite Hf; apply list_elem_of_here).
  by apply list_elem_of_filter in He as [_ ?].
Qed.

Lemma NoDup_fmap_filter {A B} (f : A → B) (P : A → Prop) `{∀ x, Decision (P x)}
    (l : list A) :
  NoDup (f <$> l) → NoDup (f <$> filter P l).
Proof.
  intros Hnd. apply NoDup_fmap_2_strong.
  - intros x y [_ Hx]%list_elem_of_filter [_ Hy]%list_elem_of_filter Heq.
    by eapply NoDup_fmap_eq.
  - apply NoDup_filter. by eapply NoDup_fmap_1.
Qed.

Lemma Forall_filter_keep {A} (Q P : A → Prop) `{∀ x, Decision (P x)} (l : list A) :
  Forall Q l → Forall Q (filter P l).
Proof.
  rewrite !Forall_forall. intros HQ x [_ Hx]%list_elem_of_filter. by apply HQ.
Qed.

Lemma store_wf_delete ek id st : store_wf st → store_wf (delete_entity ek id st).
Proof.
  intros Hwf. destruct ek as [|k]; simpl.
  - destruct Hwf as ((Ht1 & Ht2) & (Hi1 & Hi2) & Hnd & Hlt & Hlt' & Hli).
    split_and!; simpl; try done.
    + by apply NoDup_fmap_filter.
    + by apply Forall_filter_keep.
    + intros p [_ Hp]%elem_of_filter. by apply Hlt'.
    + intros p [_ Hp]%elem_of_filter. by apply Hli.
  - apply store_wf_set_table; [done| |].
    + destruct (store_wf_table k st Hwf) as [Hnd Hlt]. split; simpl.
      * by apply NoDup_fmap_filter.
      * by apply Forall_filter_keep.
    + simpl. intros p [_ Hp]%elem_of_filter. by eapply store_wf_links.
Qed.

Lemma store_wf_rename k id name st : store_wf st → store_wf (rename_entity k id name st).
Proof.
  intros Hwf. unfold rename_entity. apply store_wf_set_table; [done| |].
  - destruct (store_wf_table k st Hwf) as [Hnd Hlt]. split; simpl.
    + rewrite <- list_fmap_compose.
      erewrite list_fmap_ext; [exact Hnd|]. intros i r _. simpl. by case_decide.
    + apply Forall_fmap. eapply Forall_impl; [exact Hlt|].
      intros r Hr. simpl. case_decide; simpl; [by subst|done].
  - simpl. intros p Hp. by eapply store_wf_links.
Qed.

Lemma hoare_save_existing fields u inst data :
  hoare (wf_with (Recipe.id inst)) (save_existing fields u inst data)
    (λ _, store_wf) store_wf.
Proof.
  unfold save_existing. destruct (to_internal_value fields data).
  - apply hoare_update.
  - apply hoare_raise. by intros st [].
Qed.

Lemma hoare_save_new fields u data :
  hoare store_wf (save_new fields u data) (λ _, store_wf) store_wf.
Proof.
  unfold save_new. destruct (to_internal_value fields data).
  - apply hoare_create.
  - by apply hoare_raise.
Qed.

Lemma recipe_id_handed_out st r :
  store_wf st → ERecipe r ∈ entities EKRecipe st → wf_with (Recipe.id r) st.
Proof.
  intros Hwf Hr. split; [done|].
  destruct Hwf as (_ & _ & _ & Hlt & _).
  apply list_elem_of_fmap in Hr as (r' & [= <-] & Hr').
  rewrite Forall_forall in Hlt. by apply Hlt.
Qed.

(** Every request, whether it returns or raises, leaves a well-formed
    store well-formed. *)
Lemma handle_wf order_by req :
  hoare store_wf (handle order_by req) (λ _, store_wf) store_wf.
Proof.
  destruct req as [ek o a|ek o i|ek o i|o i data|k o i name|o data]; simpl.
  - by intros st H.
  - eapply hoare_bind; [apply hoare_get_owned|]. intros e. by intros st [].
  - eapply hoare_bind; [apply hoare_get_owned|]. intros e st [Hwf _].
    by apply store_wf_delete.
  - eapply hoare_bind; [apply hoare_get_owned|]. intros [r|k r].
    + eapply hoare_bind.
      * eapply hoare_weaken; [apply hoare_save_existing|..]; [|done|done].
        intros st [Hwf Hr]. by apply recipe_id_handed_out.
      * intros r'. by intros st H.
    + apply hoare_raise. by intros st [].
  - eapply hoare_bind; [apply hoare_get_owned|]. intros e st [Hwf _].
    by apply store_wf_rename.
  - eapply hoare_bind; [apply hoare_save_new|]. intros r. by intros st H.
Qed.

(** Every store the requests reach from the empty one is well-formed. *)
Lemma serve_wf order_by reqs st :
  store_wf st → store_wf (serve order_by reqs st).
Proof.
  revert st. induction reqs as [|req reqs IH]; intros st Hwf; simpl; [done|].
  apply IH. pose proof (handle_wf order_by req st Hwf) as H.
  by destruct (handle order_by req st) as [[a|e] st1].
Qed.

Lemma empty_store_wf : store_wf empty_store.
Proof. apply (bool_decide_unpack _). vm_compute. exact I. Qed.

(** Two rows under one owner and name are reachable: user 1 renames the
    tag Breakfast to Indian, and from then on an update of a recipe of
    theirs that names Indian raises. *)
Lemma duplicate_rows_reachable :
  let st := serve id [UpdateNamed KTag 1 1 "Indian"] sample_store in
  store_wf st ∧
  length (matching 1 "Indian" (rows (table KTag st))) = 2 ∧
  (handle id (UpdateRecipe 1 1 (<["tags" := VSpecs ["Indian"]]> ∅)) st).1
    = Raise MultipleObjectsReturned.
Proof.
  split_and!.
  - apply serve_wf, sample_store_wf.
  - vm_compute. reflexivity.
  - vm_compute. reflexivity.
Qed.

(** ** The repository's tests, replayed on the model *)

(** [test_create_recipe_with_new_tags]: two new tags, both of the
    requesting user. *)
Example test_create_recipe_with_new_tags :
  ∃ r st',
    handle id (CreateRecipe 1 (delete "user" (<["tags" := VSpecs ["Thai"; "Dinner"]]>
                                                sample_validated))) empty_store
      = (Ok (Detail (ERecipe r)), st') ∧
    Recipe.user r = 1 ∧
    related KTag st' (Recipe.id r) = [Row.mk 1 1 "Thai"; Row.mk 2 1 "Dinner"].
Proof. eexists _, _. vm_compute. done. Qed.

(** [test_create_recipe_with_existing_tag]: the tag Indian exists; the
    recipe gets two tags and no second Indian row appears. *)
Example test_create_recipe_with_existing_tag :
  ∃ r st',
    create 1 (<["tags" := VSpecs ["Indian"; "Dinner"]]> sample_validated) sample_store
      = (Ok r, st') ∧
    related KTag st' (Recipe.id r) = [Row.mk 2 1 "Indian"; Row.mk 4 1 "Dinner"] ∧
    matching 1 "Indian" (rows (table KTag st')) = [Row.mk 2 1 "Indian"].
Proof. eexists _, _. vm_compute. done. Qed.

(** [test_create_tag_on_update]: a tag that does not exist is created. *)
Example test_create_tag_on_update :
  ∃ r st',
    update 1 sample_recipe (<["tags" := VSpecs ["Launch"]]> ∅) sample_store = (Ok r, st') ∧
    matching 1 "Launch" (rows (table KTag st')) = [Row.mk 4 1 "Launch"] ∧
    Row.mk 4 1 "Launch" ∈ related KTag st' 1.
Proof.
  eexists _, _. split; [vm_compute; reflexivity|].
  split; [vm_compute; reflexivity|].
  apply (bool_decide_unpack _). vm_compute. exact I.
Qed.

(** [test_update_recipe_assign_tag]: Indian replaces Breakfast. *)
Example test_update_recipe_assign_tag :
  ∃ r st',
    update 1 sample_recipe (<["tags" := VSpecs ["Indian"]]> ∅) sample_store = (Ok r, st') ∧
    related KTag sample_store 1 = [Row.mk 1 1 "Breakfast"] ∧
    related KTag st' 1 = [Row.mk 2 1 "Indian"].
Proof. eexists _, _. vm_compute. done. Qed.

(** [test_clear_recipe_Tags] and [test_clear_recipe_ingredients]. *)
Example test_clear_recipe_tags :
  ∃ r st',
    update 1 sample_recipe
      (<["tags" := VSpecs []]> (<["ingredients" := VSpecs []]> ∅)) sample_store
      = (Ok r, st') ∧
    related KTag st' 1 = [] ∧ related KIngredient st' 1 = [].
Proof. eexists _, _. vm_compute. done. Qed.

(** [test_partial_update]: the title changes, the link and the owner stay. *)
Example test_partial_update :
  ∃ r st',
    handle id (UpdateRecipe 1 1 (<["title" := VStr "New recipe title"]> ∅)) sample_store
      = (Ok (Detail (ERecipe r)), st') ∧
    Recipe.title r = "New recipe title" ∧
    Recipe.link r = Recipe.link sample_recipe ∧
    Recipe.user r = 1 ∧
    r ∈ Recipe_objects st'.
Proof.
  eexists _, _. split; [vm_compute; reflexivity|].
  split_and!; try reflexivity. apply list_elem_of_here.
Qed.

(** [test_update_user_returns_error]: the owner is not changed. *)
Example test_update_user_returns_error :
  ∃ r st',
    handle id (UpdateRecipe 1 1 (<["user" := VInt 2]> ∅)) sample_store
      = (Ok (Detail (ERecipe r)), st') ∧
    Recipe.user r = 1 ∧ st' = sample_store.
Proof. eexists _, _. vm_compute. done. Qed.

(** [test_recipe_other_users_recipe_error]: deleting another user's recipe
    is a 404 and the recipe is still there. *)
Example test_recipe_other_users_recipe_error :
  handle id (Destroy EKRecipe 1 3) sample_store = (Raise NotFound, sample_store).
Proof. reflexivity. Qed.

(** [test_delete_recipe] and [test_delete_tag]. *)
Example test_delete :
  Recipe.id <$> Recipe_objects (handle id (Destroy EKRecipe 1 1) sample_store).2 = [2; 3] ∧
  related KTag (handle id (Destroy (EKNamed KTag) 1 1) sample_store).2 2 = [].
Proof. vm_compute. done. Qed.

(** [test_filter_tags_assigned_to_recipes] and [test_filter_tags_unique]:
    Breakfast, on two recipes, is listed once; Indian, on none, is not. *)
Example test_filter_tags :
  list_entities id (EKNamed KTag) 1 true sample_store
    = [ENamed KTag (Row.mk 1 1 "Breakfast")] ∧
  list_entities id (EKNamed KTag) 1 false sample_store
    = [ENamed KTag (Row.mk 1 1 "Breakfast"); ENamed KTag (Row.mk 2 1 "Indian")].
Proof. vm_compute. done. Qed.

(** * Further properties of the serializer *)

(** ** Invariants of [update] and [create], whether they return or raise *)

Lemma hoare_related_inv k u inst v (Inv : Store → Prop) :
  (∀ n, hoare Inv (get_or_create k u n) (λ _, Inv) Inv) →
  (∀ oid, hoare Inv (add k (Recipe.id inst) oid) (λ _, Inv) Inv) →
  hoare Inv (get_or_create_related k u inst v) (λ _, Inv) Inv.
Proof.
  intros Hg Ha. unfold get_or_create_related.
  assert (Hb : ∀ name, hoare Inv
            (do '(obj, created) <- get_or_create k u name;
             add k (Recipe.id inst) (Row.id obj))
            (λ _, Inv) Inv).
  { intros name. eapply hoare_bind; [apply Hg|]. intros [obj c]. apply Ha. }
  destruct v as [|s| | | |names]; simpl; try by apply hoare_raise.
  - destruct s; [by intros st H | by apply hoare_raise].
  - by apply hoare_for_each.
Qed.

(** What the four ORM calls of the serializer keep, [update] keeps. *)
Lemma hoare_update_inv u inst vd (Inv : Store → Prop) :
  (∀ k n, hoare Inv (get_or_create k u n) (λ _, Inv) Inv) →
  (∀ k oid, hoare Inv (add k (Recipe.id inst) oid) (λ _, Inv) Inv) →
  (∀ k, hoare Inv (clear k (Recipe.id inst)) (λ _, Inv) Inv) →
  (∀ inst2, Recipe.id inst2 = Recipe.id inst →
            hoare Inv (save inst2) (λ _, Inv) Inv) →
  hoare Inv (update u inst vd) (λ _, Inv) Inv.
Proof.
  intros Hg Ha Hc Hs. rewrite update_unfold.
  assert (Hrel : ∀ k v, hoare Inv (relink k u inst v) (λ _, Inv) Inv).
  { intros k v. unfold relink. destruct (is_not_None v); [|by intros st H].
    eapply hoare_bind; [apply Hc|]. intros ?. by apply hoare_related_inv. }
  eapply hoare_bind; [apply Hrel|]. intros ?.
  eapply hoare_bind; [apply Hrel|]. intros ?.
  eapply hoare_bind; [apply Hs, set_attrs_id|]. intros ?. by intros st H.
Qed.

(** What the ORM calls keep for the recipe just inserted, [create] keeps. *)
Lemma hoare_create_inv u vd (P : Store → Prop) (Inv : Recipe.t → Store → Prop)
    (E : Store → Prop) :
  (∀ kwargs, hoare P (Recipe_objects_create kwargs) Inv E) →
  (∀ r st, Inv r st → E st) →
  (∀ r k n, hoare (Inv r) (get_or_create k u n) (λ _, Inv r) (Inv r)) →
  (∀ r k oid, hoare (Inv r) (add k (Recipe.id r) oid) (λ _, Inv r) (Inv r)) →
  hoare P (create u vd) Inv E.
Proof.
  intros Hc HE Hg Ha. rewrite create_unfold.
  eapply hoare_bind; [apply Hc|]. intros r.
  assert (Hrel : ∀ k v, hoare (Inv r) (get_or_create_related k u r v) (λ _, Inv r) E).
  { intros k v. eapply hoare_weaken; [by apply hoare_related_inv|..]; eauto. }
  eapply hoare_bind; [apply Hrel|]. intros ?.
  eapply hoare_bind; [apply Hrel|]. intros ?. by intros st H.
Qed.

Lemma rows_appended_refl u st : rows_appended u st st.
Proof. intros k. exists []. by rewrite app_nil_r. Qed.

Lemma rows_appended_rows u st0 st st' :
  (∀ k, rows (table k st') = rows (table k st)) →
  rows_appended u st0 st → rows_appended u st0 st'.
Proof. intros Heq H k. rewrite Heq. apply H. Qed.

Lemma rows_appended_get_or_create u st0 k n :
  hoare (rows_appended u st0) (get_or_create k u n)
    (λ _, rows_appended u st0) (rows_appended u st0).
Proof.
  intros st H. unfold get_or_create.
  destruct (matching u n (rows (table k st))) as [|r [|r' l]]; try done.
  intros k'. destruct (H k') as (new & Hrows & Hall).
  destruct (decide (k = k')) as [<-|Hne].
  - rewrite table_set_table_eq. simpl.
    exists (new ++ [Row.mk (next_id (table k st)) u n]).
    rewrite Hrows, (assoc_L (++)). split; [done|].
    apply Forall_app. split; [done|]. by apply Forall_singleton.
  - rewrite table_set_table_ne by done. eauto.
Qed.

Lemma rows_set_table_same k k' T st :
  rows T = rows (table k st) → rows (table k' (set_table k T st)) = rows (table k' st).
Proof.
  intros HT. destruct (decide (k = k')) as [<-|Hne].
  - by rewrite table_set_table_eq.
  - by rewrite table_set_table_ne.
Qed.

Lemma rows_appended_add u st0 k rid oid :
  hoare (rows_appended u st0) (add k rid oid)
    (λ _, rows_appended u st0) (rows_appended u st0).
Proof.
  intros st H. unfold add. eapply rows_appended_rows; [|exact H].
  intros k'. by apply rows_set_table_same.
Qed.

Lemma rows_appended_clear u st0 k rid :
  hoare (rows_appended u st0) (clear k rid)
    (λ _, rows_appended u st0) (rows_appended u st0).
Proof.
  intros st H. unfold clear. eapply rows_appended_rows; [|exact H].
  intros k'. by apply rows_set_table_same.
Qed.

Lemma rows_appended_save u st0 inst :
  hoare (rows_appended u st0) (save inst)
    (λ _, rows_appended u st0) (rows_appended u st0).
Proof.
  intros st H. unfold save. eapply rows_appended_rows; [|exact H].
  intros k'. by rewrite table_set_recipes.
Qed.

Lemma rows_appended_Recipe_objects_create u st0 kwargs :
  hoare (rows_appended u st0) (Recipe_objects_create kwargs)
    (λ _, rows_appended u st0) (rows_appended u st0).
Proof.
  intros st H. unfold Recipe_objects_create. case_decide; [|done].
  destruct (kwargs !! "user") as [[]|]; try done.
  destruct (kwargs !! "title") as [[]|]; try done.
  destruct (kwargs !! "time_minutes") as [[]|]; try done.
  destruct (kwargs !! "price") as [[]|]; done.
Qed.

(** X1.  Whether they return or raise, [update] and [create] remove and
    alter no Tag or Ingredient row: each table afterwards is the table
    before followed by new rows, and every new row belongs to the
    requesting user.  In particular clearing a relation leaves the rows
    that were related in their table. *)
Theorem serializer_only_appends_rows u inst vd st :
  rows_appended u st (update u inst vd st).2 ∧
  rows_appended u st (create u vd st).2.
Proof.
  split.
  - pose proof (hoare_update_inv u inst vd (rows_appended u st)) as H.
    specialize (H (rows_appended_get_or_create u st)
                  (λ k, rows_appended_add u st k _)
                  (λ k, rows_appended_clear u st k _)
                  (λ i _, rows_appended_save u st i) st (rows_appended_refl u st)).
    by destruct (update u inst vd st) as [[r|e] st'].
  - pose proof (hoare_create_inv u vd (rows_appended u st)
                  (λ _, rows_appended u st) (rows_appended u st)) as H.
    specialize (H (rows_appended_Recipe_objects_create u st) (λ _ _ HI, HI)
                  (λ _, rows_appended_get_or_create u st)
                  (λ r k, rows_appended_add u st k _) st (rows_appended_refl u st)).
    by destruct (create u vd st) as [[r|e] st'].
Qed.

(** ** What [update] and [create] leave to the other recipes *)

Lemma others_kept_refl rid st : others_kept rid st st.
Proof. by split. Qed.

Lemma others_kept_get_or_create rid st0 k u n :
  hoare (others_kept rid st0) (get_or_create k u n)
    (λ _, others_kept rid st0) (others_kept rid st0).
Proof.
  intros st [Hl Hr]. unfold get_or_create.
  destruct (matching u n (rows (table k st))) as [|r [|r' l]]; try done.
  split.
  - intros k' p Hp. rewrite <- (Hl k' p Hp).
    destruct (decide (k = k')) as [<-|Hne].
    + by rewrite table_set_table_eq.
    + by rewrite table_set_table_ne.
  - intros r Hid. rewrite Recipe_objects_set_table. by apply Hr.
Qed.

Lemma others_kept_add rid st0 k oid :
  hoare (others_kept rid st0) (add k rid oid)
    (λ _, others_kept rid st0) (others_kept rid st0).
Proof.
  intros st [Hl Hr]. unfold add. split.
  - intros k' p Hp. rewrite <- (Hl k' p Hp).
    destruct (decide (k = k')) as [<-|Hne].
    + rewrite table_set_table_eq. simpl. rewrite elem_of_union, elem_of_singleton.
      split; [|by right]. intros [->|?]; done.
    + by rewrite table_set_table_ne.
  - intros r Hid. rewrite Recipe_objects_set_table. by apply Hr.
Qed.

Lemma others_kept_clear rid st0 k :
  hoare (others_kept rid st0) (clear k rid)
    (λ _, others_kept rid st0) (others_kept rid st0).
Proof.
  intros st [Hl Hr]. unfold clear. split.
  - intros k' p Hp. rewrite <- (Hl k' p Hp).
    destruct (decide (k = k')) as [<-|Hne].
    + rewrite table_set_table_eq. simpl. rewrite elem_of_filter. tauto.
    + by rewrite table_set_table_ne.
  - intros r Hid. rewrite Recipe_objects_set_table. by apply Hr.
Qed.

Lemma others_kept_save rid st0 inst :
  Recipe.id inst = rid →
  hoare (others_kept rid st0) (save inst)
    (λ _, others_kept rid st0) (others_kept rid st0).
Proof.
  intros Hid st [Hl Hr]. unfold save. split.
  - intros k' p Hp. rewrite table_set_recipes. by apply Hl.
  - intros r Hne. rewrite <- (Hr r Hne). simpl. case_decide as Hin.
    + rewrite list_elem_of_fmap. split.
      * intros (r0 & -> & Hr0). case_decide; [congruence | done].
      * intros Hr0. exists r. split; [|done]. rewrite decide_False; [done|congruence].
    + rewrite elem_of_app, list_elem_of_singleton. split; [|by left].
      intros [?| ->]; [done | congruence].
Qed.

Lemma others_kept_Recipe_objects_create st kwargs :
  hoare (λ s, s = st) (Recipe_objects_create kwargs)
    (λ r s, Recipe.id r = next_recipe_id st ∧ others_kept (next_recipe_id st) st s)
    (others_kept (next_recipe_id st) st).
Proof.
  intros s ->. unfold Recipe_objects_create.
  case_decide; [|apply others_kept_refl].
  destruct (kwargs !! "user") as [[]|]; try apply others_kept_refl.
  destruct (kwargs !! "title") as [[]|]; try apply others_kept_refl.
  destruct (kwargs !! "time_minutes") as [[]|]; try apply others_kept_refl.
  destruct (kwargs !! "price") as [[]|]; try apply others_kept_refl.
  split; [done|]. split.
  - intros k p _. by rewrite table_set_recipes.
  - intros r Hne. simpl. rewrite elem_of_app, list_elem_of_singleton.
    split; [|by left]. intros [?| ->]; [done|]. by simpl in Hne.
Qed.

(** X2.  Whether they return or raise, [update] and [create] touch one
    recipe only: the rows of all other recipes, and the tag and ingredient
    associations of all other recipes, are as before.  For [update] the
    one recipe is the instance, for [create] it is the recipe under the
    next primary key; so on a well-formed store [create] keeps every
    recipe and every association there was. *)
Theorem serializer_frames_other_recipes u inst vd st :
  others_kept (Recipe.id inst) st (update u inst vd st).2 ∧
  others_kept (next_recipe_id st) st (create u vd st).2 ∧
  (store_wf st →
     (∀ r, r ∈ Recipe_objects st → r ∈ Recipe_objects (create u vd st).2) ∧
     (∀ k p, p ∈ links (table k st) → p ∈ links (table k (create u vd st).2))).
Proof.
  assert (Hu : others_kept (Recipe.id inst) st (update u inst vd st).2).
  { pose proof (hoare_update_inv u inst vd (others_kept (Recipe.id inst) st)) as H.
    specialize (H (λ k n, others_kept_get_or_create _ st k u n)
                  (others_kept_add _ st) (others_kept_clear _ st)
                  (λ i Hi, others_kept_save _ st i Hi) st (others_kept_refl _ st)).
    by destruct (update u inst vd st) as [[r|e] st']. }
  assert (Hc : others_kept (next_recipe_id st) st (create u vd st).2).
  { pose proof (hoare_create_inv u vd (λ s, s = st)
                  (λ r s, Recipe.id r = next_recipe_id st ∧
                          others_kept (next_recipe_id st) st s)
                  (others_kept (next_recipe_id st) st)) as H.
    specialize (H (others_kept_Recipe_objects_create st)).
    assert (Hres : match create u vd st with
                   | (Ok r, st') => Recipe.id r = next_recipe_id st ∧
                                    others_kept (next_recipe_id st) st st'
                   | (Raise _, st') => others_kept (next_recipe_id st) st st'
                   end).
    { apply H; [by intros r s [_ ?] | | | done].
      - intros r k n s [Hid Hk]. pose proof (others_kept_get_or_create _ st k u n s Hk).
        by destruct (get_or_create k u n s) as [[a|e] s'].
      - intros r k oid s [Hid Hk]. rewrite Hid.
        pose proof (others_kept_add _ st k oid s Hk).
        by destruct (add k (next_recipe_id st) oid s) as [[a|e] s']. }
    by destruct (create u vd st) as [[r|e] st']; [destruct Hres|]. }
  split_and!; [done|done|].
  intros Hwf. destruct Hc as [Hl Hr]. split.
  - intros r Hin. apply Hr; [|done].
    destruct Hwf as (_ & _ & _ & Hlt & _). rewrite Forall_forall in Hlt.
    specialize (Hlt r Hin). simpl in Hlt. lia.
  - intros k p Hp. apply Hl; [|done].
    pose proof (store_wf_links k st p Hwf Hp). lia.
Qed.

Lemma serializer_frames_other_recipes_witness :
  (∀ r, r ∈ Recipe_objects sample_store →
        r ∈ Recipe_objects (create 1 sample_validated sample_store).2) ∧
  (∀ k p, p ∈ links (table k sample_store) →
          p ∈ links (table k (create 1 sample_validated sample_store).2)).
Proof.
  apply (serializer_frames_other_recipes 1 sample_recipe sample_validated sample_store).
  exact sample_store_wf.
Defined.

(** ** Which rows the loop creates *)

Lemma matching_nil_app u n l r :
  matching u n (l ++ [r]) = [] ↔
  matching u n l = [] ∧ ¬ (Row.user r = u ∧ Row.name r = n).
Proof.
  rewrite matching_app, matching_singleton. case_decide.
  - split; [|tauto]. intros Happ%app_eq_nil. by destruct Happ.
  - rewrite app_nil_r. tauto.
Qed.

(** The rows a loop that returns has created: one per listed name that
    had no row, in a block of consecutive primary keys. *)
Lemma for_each_loop_created k u inst l st st' :
  for_each l (loop_body k u inst) st = (Ok tt, st') →
  ∃ new,
    rows (table k st') = rows (table k st) ++ new ∧
    next_id (table k st') = next_id (table k st) + length new ∧
    Row.id <$> new = seq (next_id (table k st)) (length new) ∧
    Forall (λ r, Row.user r = u) new ∧
    NoDup (Row.name <$> new) ∧
    ∀ n, n ∈ Row.name <$> new ↔ n ∈ l ∧ matching u n (rows (table k st)) = [].
Proof.
  revert st. induction l as [|n l IH]; intros st H; simpl in H.
  - injection H as <-. exists []. rewrite app_nil_r.
    split_and!; simpl; try done; try lia; try apply NoDup_nil_2.
    intros n. split; [by intros ?%elem_of_nil | by intros [?%elem_of_nil _]].
  - destruct (loop_body_cases k u inst n st) as [[Hm Hb]|[(r & Hm & Hb)|[Hm Hb]]];
      simpl in Hb.
    + erewrite bind_run_Ok in H by exact Hb.
      apply IH in H as (new & Hrows & Hnext & Hids & Hu & Hnd & Hmem).
      rewrite table_set_table_eq in Hrows, Hnext, Hids, Hmem. simpl in *.
      exists (Row.mk (next_id (table k st)) u n :: new). split_and!.
      * by rewrite Hrows, <- (assoc_L (++)).
      * simpl. lia.
      * by rewrite fmap_cons, Hids.
      * by constructor.
      * rewrite fmap_cons. simpl. apply NoDup_cons. split; [|done].
        intros [_ Habs]%Hmem. apply matching_nil_app in Habs as [_ Habs].
        by apply Habs.
      * intros m. rewrite fmap_cons. simpl.
        rewrite elem_of_cons, Hmem, elem_of_cons, matching_nil_app.
        simpl. split.
        -- intros [->|(? & ? & ?)]; [by split; [left|] | by split; [right|]].
        -- intros [[->|?] ?]; [by left|].
           destruct (decide (m = n)) as [->|]; [by left|]. right. split_and!; try done.
           intros [_ ?]. done.
    + erewrite bind_run_Ok in H by exact Hb.
      apply IH in H as (new & Hrows & Hnext & Hids & Hu & Hnd & Hmem).
      rewrite table_set_table_eq in Hrows, Hnext, Hids, Hmem. simpl in *.
      exists new. split_and!; try done.
      intros m. rewrite Hmem, elem_of_cons. split; [by intros [? ?]; split; [right|]|].
      intros [[->|?] Hnone]; [by rewrite Hm in Hnone | done].
    + erewrite bind_run_Raise in H by exact Hb. discriminate.
Qed.

(** X3.  When the loop of [_get_or_create_tags] or
    [_get_or_create_ingredients] returns, the table is the table before
    followed by exactly one new row for each distinct listed name under
    which the requesting user had no row (rows of other users under that
    name do not count), and no row for a name the user had.  The new rows
    belong to the requesting user and take the next primary keys in
    order. *)
Theorem get_or_create_related_creates k u inst names st st' :
  get_or_create_related k u inst (VSpecs names) st = (Ok tt, st') →
  ∃ new,
    rows (table k st') = rows (table k st) ++ new ∧
    Row.name <$> new
      ≡ₚ remove_dups (filter (λ n, matching u n (rows (table k st)) = []) names) ∧
    Forall (λ r, Row.user r = u) new ∧
    Row.id <$> new = seq (next_id (table k st)) (length new) ∧
    next_id (table k st') = next_id (table k st) + length new.
Proof.
  rewrite get_or_create_related_specs.
  intros (new & Hrows & Hnext & Hids & Hu & Hnd & Hmem)%for_each_loop_created.
  exists new. split_and!; try done.
  apply NoDup_Permutation; [done | apply NoDup_remove_dups |].
  intros n. rewrite Hmem, elem_of_remove_dups, list_elem_of_filter. tauto.
Qed.

Lemma get_or_create_related_creates_witness :
  ∃ st' new,
    get_or_create_related KTag 1 sample_recipe
      (VSpecs ["Indian"; "Dinner"; "Lunch"; "Dinner"]) sample_store = (Ok tt, st') ∧
    rows (table KTag st') = rows (table KTag sample_store) ++ new ∧
    Row.name <$> new ≡ₚ ["Lunch"; "Dinner"] ∧
    Row.id <$> new = [4; 5].
Proof.
  eexists _.
  destruct (get_or_create_related_creates KTag 1 sample_recipe
              ["Indian"; "Dinner"; "Lunch"; "Dinner"] sample_store
              (get_or_create_related KTag 1 sample_recipe
                 (VSpecs ["Indian"; "Dinner"; "Lunch"; "Dinner"]) sample_store).2)
    as (new & Hrows & Hnames & _ & Hids & _).
  - vm_compute. reflexivity.
  - exists new. split; [vm_compute; reflexivity|]. split; [exact Hrows|].
    split; [exact Hnames|].
    assert (Hlen : length new = 2).
    { rewrite <- (length_fmap Row.name), Hnames. reflexivity. }
    by rewrite Hids, Hlen.
Defined.

(** ** Partial and full validation *)

Lemma perform_update_partial fields u inst data :
  perform_update true fields u inst data = save_existing fields u inst data.
Proof. reflexivity. Qed.

Lemma is_valid_Ok partial fields data vd :
  is_valid partial fields data = Ok vd → to_internal_value fields data = Ok vd.
Proof.
  unfold is_valid. destruct partial; [done|]. by case_decide.
Qed.

Lemma is_valid_ext partial fields fields' (data data' : gmap string value) :
  to_internal_value fields data = to_internal_value fields' data' →
  (∀ f, f ∈ required_columns →
     (f ∈ fields → is_Some (data !! f)) ↔ (f ∈ fields' → is_Some (data' !! f))) →
  is_valid partial fields data = is_valid partial fields' data'.
Proof.
  intros Hv Hreq. unfold is_valid. destruct partial; [done|]. rewrite Hv.
  destruct (decide (Forall (λ f, f ∈ fields → is_Some (data !! f)) required_columns))
    as [H|H];
  destruct (decide (Forall (λ f, f ∈ fields' → is_Some (data' !! f)) required_columns))
    as [H'|H']; try done; exfalso.
  - apply H'. apply Forall_forall. intros f Hf. apply Hreq; [done|].
    by apply (proj1 (Forall_forall _ _) H).
  - apply H. apply Forall_forall. intros f Hf. apply Hreq; [done|].
    by apply (proj1 (Forall_forall _ _) H').
Qed.

(** ** When [update] raises *)

Lemma for_each_loop_Ok_le k u inst l st st' :
  for_each l (loop_body k u inst) st = (Ok tt, st') →
  ∀ n, n ∈ l → length (matching u n (rows (table k st))) ≤ 1.
Proof.
  revert st. induction l as [|n l IH]; intros st H m Hm; [by apply elem_of_nil in Hm|].
  simpl in H. apply bind_Ok in H as ([] & st1 & Hb & Hl).
  apply loop_body_Ok in Hb as (r & _ & _ & _ & _ & _ & Ho & _ & Hle & _).
  destruct (decide (m = n)) as [->|Hne]; [done|].
  apply elem_of_cons in Hm as [?|Hm]; [done|].
  rewrite <- (Ho u m) by congruence. by eapply IH.
Qed.

Lemma for_each_loop_Raise k u inst l st e st' :
  for_each l (loop_body k u inst) st = (Raise e, st') → e = MultipleObjectsReturned.
Proof.
  revert st. induction l as [|n l IH]; intros st H; simpl in H; [discriminate|].
  destruct (loop_body_cases k u inst n st) as [[_ Hb]|[(r & _ & Hb)|[_ Hb]]];
    simpl in Hb.
  - erewrite bind_run_Ok in H by exact Hb. by eapply IH.
  - erewrite bind_run_Ok in H by exact Hb. by eapply IH.
  - erewrite bind_run_Raise in H by exact Hb. by injection H as <- _.
Qed.

Lemma relink_Ok_iff k u inst v st :
  typed_relation v →
  (∃ st', relink k u inst v st = (Ok tt, st')) ↔
  ∀ n, n ∈ spec_names v → length (matching u n (rows (table k st))) ≤ 1.
Proof.
  intros Hty. split.
  - intros [st' H]. destruct Hty as [->|[names ->]]; [by intros n ?%elem_of_nil|].
    unfold relink in H. simpl in H. apply bind_Ok in H as ([] & st1 & Hc & H).
    unfold clear in Hc. injection Hc as <-.
    pose proof (for_each_loop_Ok_le k u inst names _ _ H) as Hle.
    by rewrite table_set_table_eq in Hle.
  - intros Hle. apply relink_returns.
    destruct Hty as [->|[names ->]]; [by left|]. right; right. by exists names.
Qed.

Lemma relink_Raise k u inst v st e st' :
  typed_relation v →
  relink k u inst v st = (Raise e, st') → e = MultipleObjectsReturned.
Proof.
  intros [->|[names ->]]; unfold relink; simpl; [discriminate|].
  unfold bind, clear. by apply for_each_loop_Raise.
Qed.

Lemma relink_Raise_several k u inst v st e st' :
  typed_relation v →
  relink k u inst v st = (Raise e, st') →
  ∃ n, n ∈ spec_names v ∧ 1 < length (matching u n (rows (table k st))).
Proof.
  intros Hty H.
  destruct (decide (Forall (λ n, length (matching u n (rows (table k st))) ≤ 1)
                      (spec_names v))) as [Hall|Hnot].
  - destruct (proj2 (relink_Ok_iff k u inst v st Hty)) as [st1 H1].
    + intros n Hn. by apply (proj1 (Forall_forall _ _) Hall).
    + congruence.
  - apply not_Forall_Exists in Hnot; [|apply _].
    apply Exists_exists in Hnot as (n & Hn & Hlen). exists n. split; [done|].
    simpl in Hlen. lia.
Qed.

(** X4.  For validated data whose relations are lists of names: [update]
    raises [MultipleObjectsReturned] exactly when some name listed under
    "tags" has several Tag rows of the requesting user, or some name
    listed under "ingredients" has several Ingredient rows of theirs.  The
    recipe table is then untouched: the loops run before any column of the
    instance is written. *)
Theorem update_raises_on_duplicates u inst vd st :
  (∀ k, typed_relation (default VNone (vd !! relation_key k))) →
  ((∃ st', update u inst vd st = (Raise MultipleObjectsReturned, st')) ↔
   ∃ k n, n ∈ spec_names (default VNone (vd !! relation_key k)) ∧
          1 < length (matching u n (rows (table k st)))) ∧
  (∀ st', update u inst vd st = (Raise MultipleObjectsReturned, st') →
     Recipe_objects st' = Recipe_objects st).
Proof.
  intros Hty. split; [split|].
  - intros [st' H]. rewrite update_unfold in H. unfold bind at 1 in H.
    destruct (relink KIngredient u inst _ st) as [[[]|e1] st1] eqn:H1.
    + unfold bind at 1 in H.
      destruct (relink KTag u inst _ st1) as [[[]|e2] st2] eqn:H2; [discriminate|].
      apply relink_Raise_several in H2 as (n & Hn & Hlen); [|apply (Hty KTag)].
      pose proof (relink_Ok _ _ _ _ _ _ H1) as (Hk & _).
      rewrite (Hk KTag) in Hlen by done. by exists KTag, n.
    + apply relink_Raise_several in H1 as (n & Hn & Hlen); [|apply (Hty KIngredient)].
      by exists KIngredient, n.
  - intros (k & n & Hn & Hlen).
    destruct (update u inst vd st) as [[inst'|e] st'] eqn:H.
    + exfalso. pose proof H as (st1 & st2 & Hi & Ht & _)%update_Ok.
      assert (length (matching u n (rows (table k st))) ≤ 1); [|lia].
      destruct k.
      * pose proof (relink_Ok _ _ _ _ _ _ Hi) as (Hk & _).
        rewrite <- (Hk KTag) by done.
        eapply (relink_Ok_iff KTag); [apply (Hty KTag) | by eexists | done].
      * eapply (relink_Ok_iff KIngredient); [apply (Hty KIngredient) | by eexists | done].
    + exists st'. f_equal. f_equal.
      rewrite update_unfold in H. unfold bind at 1 in H.
      destruct (relink KIngredient u inst _ st) as [[[]|e1] st1] eqn:H1.
      * unfold bind at 1 in H.
        destruct (relink KTag u inst _ st1) as [[[]|e2] st2] eqn:H2; [discriminate|].
        injection H as <- _. by eapply relink_Raise; [apply (Hty KTag)|].
      * injection H as <- _. by eapply relink_Raise; [apply (Hty KIngredient)|].
  - intros st' H. by eapply update_Raise.
Qed.

Lemma update_raises_on_duplicates_witness :
  ∃ st',
    update 1 (Recipe.mk 1 1 "Curry" 22 525 None None None)
      (<["tags" := VSpecs ["Indian"]]> (<["title" := VStr "Late"]> ∅)) duplicate_store
      = (Raise MultipleObjectsReturned, st') ∧
    Recipe_objects st' = Recipe_objects duplicate_store.
Proof.
  destruct (update_raises_on_duplicates 1 (Recipe.mk 1 1 "Curry" 22 525 None None None)
              (<["tags" := VSpecs ["Indian"]]> (<["title" := VStr "Late"]> ∅))
              duplicate_store) as [[_ Hraise] Hrec].
  - intros []; [right; by eexists | by left].
  - destruct Hraise as [st' H].
    + exists KTag, "Indian". split; [|vm_compute; lia].
      vm_compute. apply list_elem_of_here.
    + exists st'. split; [exact H | by apply Hrec].
Defined.

(** ** The two recipe serializers *)

Lemma writable_detail f :
  f ∈ filter (λ f, f ∉ Meta_read_only_fields) Detail_Meta_fields ↔
  f ∈ filter (λ f, f ∉ Meta_read_only_fields) Meta_fields ∨ f = "description".
Proof.
  unfold Detail_Meta_fields. rewrite filter_app, elem_of_app.
  assert (Hd : filter (λ f, f ∉ Meta_read_only_fields) ["description"] = ["description"])
    by (vm_compute; reflexivity).
  by rewrite Hd, list_elem_of_singleton.
Qed.

Lemma description_not_listed : "description" ∉ Meta_fields.
Proof. apply (bool_decide_unpack _). vm_compute. exact I. Qed.

Lemma required_not_description f : f ∈ required_columns → f ≠ "description".
Proof.
  intros Hf ->. revert Hf. apply (bool_decide_unpack _). vm_compute. exact I.
Qed.

Lemma required_listed f :
  f ∈ required_columns → f ∈ Meta_fields ∧ f ∈ Detail_Meta_fields.
Proof.
  unfold required_columns. rewrite !elem_of_cons, elem_of_nil.
  intros [->|[->|[->|[]]]]; split; apply (bool_decide_unpack _); vm_compute; exact I.
Qed.

(** X5.  [RecipeDetailSerializer] adds the one field "description" to
    [RecipeSerializer], under partial and under full validation alike.
    Through the list serializer a "description" entry of the payload is
    dropped and changes nothing, and no update through it changes the
    description of the recipe; on payloads without a "description" the two
    serializers validate to the same data; and the validated data of the
    detail serializer has a "description" entry exactly when the payload
    has one. *)
Theorem detail_serializer_adds_description partial u inst data st :
  (∀ v, perform_update partial Meta_fields u inst (<["description" := v]> data) st
        = perform_update partial Meta_fields u inst data st) ∧
  (∀ inst' st',
     perform_update partial Meta_fields u inst data st = (Ok inst', st') →
     Recipe.description inst' = Recipe.description inst) ∧
  (data !! "description" = None →
     is_valid partial Detail_Meta_fields data = is_valid partial Meta_fields data) ∧
  (∀ vd, is_valid partial Detail_Meta_fields data = Ok vd →
     (is_Some (vd !! "description") ↔ is_Some (data !! "description"))).
Proof.
  split_and!.
  - intros v. unfold perform_update.
    rewrite (is_valid_ext partial Meta_fields Meta_fields
               (<["description" := v]> data) data); [done| |].
    + apply to_internal_value_ignores, description_not_listed.
    + intros f Hf. by rewrite lookup_insert_ne by (symmetry; by apply required_not_description).
  - intros inst' st'. unfold perform_update.
    destruct (is_valid partial Meta_fields data) as [vd|e] eqn:Hv; [|discriminate].
    intros H. apply is_valid_Ok in Hv.
    assert (Hd : vd !! "description" = None).
    { destruct (vd !! "description") as [x|] eqn:Hx; [|done].
      destruct (to_internal_value_Ok _ _ _ Hv _ _ Hx) as (_ & Hf & _).
      by destruct (description_not_listed). }
    apply update_Ok_columns in H as (Habs & _).
    specialize (Habs "description" Hd).
    destruct inst as [i u0 t m p l d g], inst' as [i' u' t' m' p' l' d' g'].
    vm_compute in Habs. simpl.
    destruct d, d'; simplify_eq; done.
  - intros Hnone. apply is_valid_ext.
    + unfold to_internal_value.
      assert (Heq : filter (λ kv : string * value,
                      kv.1 ∈ filter (λ f, f ∉ Meta_read_only_fields) Detail_Meta_fields) data
                    = filter (λ kv : string * value,
                      kv.1 ∈ filter (λ f, f ∉ Meta_read_only_fields) Meta_fields) data).
      { apply map_eq. intros f. apply option_eq. intros x.
        rewrite !map_lookup_filter_Some. simpl. rewrite writable_detail.
        split; [|tauto]. intros [Hf [?| ->]]; [done | congruence]. }
      by rewrite Heq.
    + intros f Hf. destruct (required_listed f Hf). tauto.
  - intros vd Hv. apply is_valid_Ok in Hv.
    unfold to_internal_value in Hv. case_decide; [|discriminate].
    injection Hv as <-. unfold is_Some. setoid_rewrite map_lookup_filter_Some. simpl.
    split.
    + intros (x & Hx & _). by exists x.
    + intros (x & Hx). exists x. split; [done|]. apply writable_detail. by right.
Qed.

Lemma detail_serializer_adds_description_witness :
  is_valid false Detail_Meta_fields (delete "description" sample_validated)
    = is_valid false Meta_fields (delete "description" sample_validated) ∧
  ∃ inst' st',
    perform_update true Meta_fields 1 sample_recipe
      (<["description" := VStr "Spicy"]> ∅) sample_store = (Ok inst', st') ∧
    Recipe.description inst' = Recipe.description sample_recipe.
Proof.
  split.
  - apply (detail_serializer_adds_description false 1 sample_recipe
             (delete "description" sample_validated) sample_store).
    apply lookup_delete_eq.
  - eexists _, _. split; [vm_compute; reflexivity|].
    eapply (proj1 (proj2 (detail_serializer_adds_description true 1 sample_recipe
                            (<["description" := VStr "Spicy"]> ∅) sample_store))).
    vm_compute. reflexivity.
Defined.

(** ** Primary keys stay unique *)

(** X6.  [create] and [update] keep the store well-formed, whether they
    return or raise: primary keys stay unique and below the next value of
    their sequence in all three tables, and no association mentions a
    recipe key that was never handed out.  For [update] the instance is
    one whose key has been handed out. *)
Theorem serializer_keeps_store_wf u inst vd st :
  store_wf st →
  store_wf (create u vd st).2 ∧
  (Recipe.id inst < next_recipe_id st → store_wf (update u inst vd st).2).
Proof.
  intros Hwf. split.
  - pose proof (hoare_create u vd st Hwf) as H.
    by destruct (create u vd st) as [[r|e] st'].
  - intros Hid. pose proof (hoare_update u inst vd st (conj Hwf Hid)) as H.
    by destruct (update u inst vd st) as [[r|e] st'].
Qed.

Lemma serializer_keeps_store_wf_witness :
  store_wf (create 1 sample_validated sample_store).2 ∧
  store_wf (update 1 sample_recipe (<["tags" := VSpecs ["Dinner"]]> ∅) sample_store).2.
Proof.
  destruct (serializer_keeps_store_wf 1 sample_recipe sample_validated sample_store
              sample_store_wf) as [Hc _].
  destruct (serializer_keeps_store_wf 1 sample_recipe
              (<["tags" := VSpecs ["Dinner"]]> ∅) sample_store sample_store_wf)
    as [_ Hu].
  split; [exact Hc|]. apply Hu. vm_compute. lia.
Defined.

(** ** Repeated names in [update] *)

(** X7.  When [update] returns and the validated data give a relation as
    a list of names, repeats allowed, the names of the rows related to the
    recipe afterwards are the distinct names of the list, each once: a
    repeated name is linked once. *)
Theorem update_links_each_name_once u inst vd st inst' st' k names :
  table_wf (table k st) →
  update u inst vd st = (Ok inst', st') →
  vd !! relation_key k = Some (VSpecs names) →
  Row.name <$> related k st' (Recipe.id inst) ≡ₚ remove_dups names.
Proof.
  intros Hwf H Hsome.
  destruct (update_relink k _ _ _ _ _ _ H) as (sa & sb & Ha & Hr & Hb).
  rewrite Hsome in Hr. simpl in Hr. rewrite <- Ha in Hwf.
  pose proof (related_after_relink k u inst (VSpecs names) sa sb Hwf Hr) as Hrel.
  apply relink_Ok in Hr as (_ & _ & _ & Hwf' & _ & Hrun).
  destruct Hrun as (_ & Hall & _); [done|].
  rewrite (related_ext k sb st') by done.
  apply (related_names k u); [by apply Hwf' | done | by apply Hrel].
Qed.

Lemma update_links_each_name_once_witness :
  ∃ inst' st',
    update 1 sample_recipe (<["tags" := VSpecs ["Indian"; "Dinner"; "Indian"]]> ∅)
      sample_store = (Ok inst', st') ∧
    Row.name <$> related KTag st' 1 ≡ₚ remove_dups ["Indian"; "Dinner"; "Indian"] ∧
    length (related KTag st' 1) = 2.
Proof.
  eexists _, _. split; [vm_compute; reflexivity|]. split; [|vm_compute; reflexivity].
  eapply (update_links_each_name_once 1 sample_recipe
            (<["tags" := VSpecs ["Indian"; "Dinner"; "Indian"]]> ∅) sample_store
            _ _ KTag ["Indian"; "Dinner"; "Indian"]).
  - apply (store_wf_table KTag), sample_store_wf.
  - vm_compute. reflexivity.
  - reflexivity.
Defined.

(** ** [create] step by step *)

Lemma create_steps u vd st r st' :
  create u vd st = (Ok r, st') →
  ∃ s0 s1,
    Recipe_objects_create (delete "ingredients" (delete "tags" vd)) st = (Ok r, s0) ∧
    get_or_create_related KTag u r (default (VSpecs []) (vd !! "tags")) s0 = (Ok tt, s1) ∧
    get_or_create_related KIngredient u r
      (default (VSpecs []) (vd !! "ingredients")) s1 = (Ok tt, st').
Proof.
  rewrite create_unfold. intros H.
  apply bind_Ok in H as (r' & s0 & Hc & H).
  apply bind_Ok in H as ([] & s1 & Ht & H).
  apply bind_Ok in H as ([] & s2 & Hi & H).
  injection H as <- <-. eauto.
Qed.

(** The store a [create] that returns leaves, seen from one relation. *)
Lemma create_related k u vd st r st' :
  store_wf st →
  create u vd st = (Ok r, st') →
  ∃ sa sb,
    table k sa = table k st ∧
    get_or_create_related k u r (default (VSpecs []) (vd !! relation_key k)) sa
      = (Ok tt, sb) ∧
    table k st' = table k sb ∧
    (∀ p, p ∈ links (table k sa) → p.1 ≠ Recipe.id r) ∧
    Recipe.id r = next_recipe_id st ∧
    Recipe_objects st' = Recipe_objects st ++ [r] ∧
    next_recipe_id st' = S (next_recipe_id st) ∧
    store_wf st'.
Proof.
  intros Hwf H.
  assert (Hwf' : store_wf st').
  { pose proof (hoare_create u vd st Hwf) as Hh. by rewrite H in Hh. }
  apply create_steps in H as (s0 & s1 & Hc & Ht & Hi).
  apply Recipe_objects_create_Ok in Hc as (Hid & Htab & Hrec & Hnext & _).
  pose proof (get_or_create_related_Ok _ _ _ _ _ _ Ht) as [_ Ht'].
  pose proof (get_or_create_related_Ok _ _ _ _ _ _ Hi) as [_ Hi'].
  apply for_each_loop_Ok in Ht' as (Hkt & Hrt & Hnt & _).
  apply for_each_loop_Ok in Hi' as (Hki & Hri & Hni & _).
  assert (Hfresh : ∀ s, table k s = table k st →
            ∀ p, p ∈ links (table k s) → p.1 ≠ Recipe.id r).
  { intros s Hs p Hp. rewrite Hs in Hp.
    pose proof (store_wf_links k st p Hwf Hp). lia. }
  destruct k.
  - exists s0, s1.
    split_and!; [apply Htab | exact Ht | by apply (Hki KTag) | apply Hfresh, Htab
                | done | congruence | congruence | done].
  - assert (Hs1 : table KIngredient s1 = table KIngredient st).
    { rewrite (Hkt KIngredient) by done. apply Htab. }
    exists s1, st'.
    split_and!; [done | exact Hi | done | by apply Hfresh
                | done | congruence | congruence | done].
Qed.

(** ** Rows are shared between recipes *)

(** X8.  Tag and Ingredient rows are shared: when a user creates a second
    recipe naming, in a relation, only names that an earlier [create] of
    theirs listed there, the second [create] adds no row to that table, and
    every row it relates to the new recipe is one the earlier recipe is
    related to. *)
Theorem create_shares_rows u vd1 vd2 st r1 st1 r2 st2 k names1 names2 :
  store_wf st →
  create u vd1 st = (Ok r1, st1) →
  create u vd2 st1 = (Ok r2, st2) →
  vd1 !! relation_key k = Some (VSpecs names1) →
  vd2 !! relation_key k = Some (VSpecs names2) →
  names2 ⊆ names1 →
  rows (table k st2) = rows (table k st1) ∧
  Recipe.id r2 ≠ Recipe.id r1 ∧
  ∀ t, t ∈ related k st2 (Recipe.id r2) → t ∈ related k st2 (Recipe.id r1).
Proof.
  intros Hwf H1 H2 Hv1 Hv2 Hsub.
  destruct (create_related k _ _ _ _ _ Hwf H1)
    as (sa1 & sb1 & Ha1 & Hl1 & Hb1 & Hf1 & Hid1 & _ & Hn1 & Hwf1).
  destruct (create_related k _ _ _ _ _ Hwf1 H2)
    as (sa2 & sb2 & Ha2 & Hl2 & Hb2 & Hf2 & Hid2 & _ & _ & _).
  rewrite Hv1 in Hl1. rewrite Hv2 in Hl2.
  change (for_each names1 (loop_body k u r1) sa1 = (Ok tt, sb1)) in Hl1.
  change (for_each names2 (loop_body k u r2) sa2 = (Ok tt, sb2)) in Hl2.
  pose proof (related_after_loop k u r1 names1 sa1 sb1) as Hrel1.
  pose proof (related_after_loop k u r2 names2 sa2 sb2) as Hrel2.
  apply for_each_loop_Ok in Hl1 as Hok1. destruct Hok1 as (_ & _ & _ & Hall1 & _).
  apply for_each_loop_Ok in Hl2 as Hok2.
  destruct Hok2 as (_ & _ & _ & _ & Hlinks2 & _ & _ & Hsame2).
  destruct Hsame2 as [Hrows2 _].
  { intros n Hn. rewrite Ha2, Hb1. destruct (Hall1 n (Hsub n Hn)) as [t ->]. done. }
  assert (Hrows : rows (table k st2) = rows (table k st1)) by congruence.
  split_and!; [done | lia |].
  intros t Ht. rewrite (related_ext k sb2 st2) in Ht |- * by done.
  apply Hrel2 in Ht as (Hin & Hu & Hname);
    [|rewrite Ha2; by apply store_wf_table|done|done].
  apply elem_of_related. split; [|done].
  apply Hlinks2. left. rewrite Ha2, Hb1.
  assert (Ht1 : t ∈ related k sb1 (Recipe.id r1)).
  { apply Hrel1; [rewrite Ha1; by apply store_wf_table|done|done|].
    split_and!; [congruence | done | by apply Hsub]. }
  by apply elem_of_related in Ht1 as [? _].
Qed.

Lemma create_shares_rows_witness :
  ∃ r1 st1 r2 st2,
    create 1 sample_validated sample_store = (Ok r1, st1) ∧
    create 1 (<["tags" := VSpecs ["Dinner"]]> sample_validated) st1 = (Ok r2, st2) ∧
    rows (table KTag st2) = rows (table KTag st1) ∧
    ∀ t, t ∈ related KTag st2 (Recipe.id r2) → t ∈ related KTag st2 (Recipe.id r1).
Proof.
  eexists _, _, _, _. split; [vm_compute; reflexivity|].
  split; [vm_compute; reflexivity|].
  match goal with
  | |- rows (table KTag ?s2) = rows (table KTag ?s1) ∧
       (∀ t, t ∈ related KTag _ (Recipe.id ?r2) → t ∈ related KTag _ (Recipe.id ?r1)) =>
      destruct (create_shares_rows 1 sample_validated
                  (<["tags" := VSpecs ["Dinner"]]> sample_validated) sample_store
                  r1 s1 r2 s2 KTag ["Thai"; "Dinner"; "Thai"] ["Dinner"])
        as (Hrows & _ & Hrel)
  end.
  - exact sample_store_wf.
  - vm_compute. reflexivity.
  - vm_compute. reflexivity.
  - vm_compute. reflexivity.
  - vm_compute. reflexivity.
  - intros n ->%list_elem_of_singleton. apply list_elem_of_further, list_elem_of_here.
  - split; [exact Hrows | exact Hrel].
Defined.

(** ** [update] after [create] *)

(** The row [Recipe.objects.create] builds has, in each column, the
    fitting value its keywords give. *)
Lemma Recipe_objects_create_columns kwargs st r st' :
  Recipe_objects_create kwargs st = (Ok r, st') →
  ∀ a v, kwargs !! a = Some v → fits a v = true → getattr r a = Some v.
Proof.
  unfold Recipe_objects_create. case_decide; [|discriminate].
  destruct (kwargs !! "user") as [[]|] eqn:Hu; try discriminate.
  destruct (kwargs !! "title") as [[]|] eqn:Ht; try discriminate.
  destruct (kwargs !! "time_minutes") as [[]|] eqn:Hm; try discriminate.
  destruct (kwargs !! "price") as [[]|] eqn:Hp; try discriminate.
  intros [= <- <-] a v Ha Hf.
  destruct v; simpl in Hf; try discriminate; fits_cases Hf;
    unfold getattr; simpl; rewrite ?Ha; simpl; congruence.
Qed.

Lemma clear_unlinked k rid st :
  (∀ p, p ∈ links (table k st) → p.1 ≠ rid) → clear k rid st = (Ok tt, st).
Proof.
  intros Hfresh. unfold clear. f_equal.
  transitivity (set_table k (table k st) st); [|apply set_table_table].
  f_equal. apply table_eq; simpl; [done| |done].
  apply set_eq. intros p. rewrite elem_of_filter. split; [tauto|].
  intros Hp. split; [by apply Hfresh | done].
Qed.

(** X9.  On a well-formed store, updating the recipe a [create] has just
    returned with data that [create] was given, that is with any part of
    its validated data that lists the same relations, changes nothing:
    [update] returns the same instance and the store is as [create] left
    it. *)
Theorem update_after_create_is_noop u vd vd2 st r st1 :
  store_wf st →
  create u vd st = (Ok r, st1) →
  vd2 ⊆ vd →
  (∀ k, vd2 !! relation_key k = vd !! relation_key k) →
  update u r vd2 st1 = (Ok r, st1).
Proof.
  intros Hwf H Hsub Hrel.
  assert (Hfix : ∀ k sc, table k sc = table k st1 →
            relink k u r (default VNone (vd2 !! relation_key k)) sc = (Ok tt, sc)).
  { intros k sc Hsc.
    destruct (create_related k _ _ _ _ _ Hwf H)
      as (sa & sb & Ha & Hl & Hb & Hfresh & _).
    rewrite Hrel. destruct (vd !! relation_key k) as [v|] eqn:Hv; [|done].
    simpl in Hl |- *.
    assert (Hrun : relink k u r v sa = (Ok tt, sb)).
    { unfold relink. destruct (is_not_None v) eqn:Hnone.
      - erewrite bind_run_Ok by by apply clear_unlinked. done.
      - by destruct v. }
    apply relink_fixpoint in Hrun as [_ Hrun]. apply Hrun. congruence. }
  destruct (create_related KTag _ _ _ _ _ Hwf H)
    as (_ & _ & _ & _ & _ & _ & Hid & Hrec & _ & _).
  pose proof H as (s0 & _ & Hc & _)%create_steps.
  rewrite update_unfold.
  erewrite bind_run_Ok by apply (Hfix KIngredient st1 eq_refl).
  erewrite bind_run_Ok by apply (Hfix KTag st1 eq_refl).
  assert (Hsame : set_attrs r (delete "ingredients" (delete "tags" vd2)) = r).
  { apply recipe_ext; [apply set_attrs_id|]. intros a. rewrite getattr_set_attrs.
    destruct (delete "ingredients" (delete "tags" vd2) !! a) as [v|] eqn:Ha; [|done].
    destruct (fits a v) eqn:Hf; [|done]. symmetry.
    eapply Recipe_objects_create_columns; [exact Hc | | done].
    apply lookup_delete_Some in Ha as [? Ha]. apply lookup_delete_Some in Ha as [? Ha].
    rewrite !lookup_delete_ne by done.
    by eapply lookup_weaken. }
  rewrite Hsame. erewrite bind_run_Ok; [done|].
  apply save_stored.
  - rewrite Hrec. apply elem_of_app. right. apply list_elem_of_here.
  - intros r' Hr' Hid'. rewrite Hrec in Hr'.
    apply elem_of_app in Hr' as [Hr'|Hr'%list_elem_of_singleton]; [|done].
    destruct Hwf as (_ & _ & _ & Hlt & _). rewrite Forall_forall in Hlt.
    specialize (Hlt r' Hr'). simpl in Hlt. lia.
Qed.

Lemma update_after_create_is_noop_witness :
  ∃ r st1,
    create 1 sample_validated sample_store = (Ok r, st1) ∧
    update 1 r (delete "user" sample_validated) st1 = (Ok r, st1).
Proof.
  eexists _, _. split; [vm_compute; reflexivity|].
  apply (update_after_create_is_noop 1 sample_validated (delete "user" sample_validated)
           sample_store).
  - exact sample_store_wf.
  - vm_compute. reflexivity.
  - apply delete_subseteq.
  - by intros [].
Defined.

(** ** Payloads that name no writable field *)

(** X10.  A payload none of whose keys is a writable field of the
    serializer (the read-only "id", "user", any unknown key; the empty
    payload is the first case) never changes the store, for an instance
    that is the one row stored under its primary key.  Under partial
    validation (PATCH) validation and [update] return the instance as it
    is; under full validation (PUT) of a serializer that declares a
    required column the payload is refused with a [ValidationError]. *)
Theorem payload_without_writable_field_is_noop partial fields u inst data st :
  (∀ f, is_Some (data !! f) →
        f ∉ filter (λ f, f ∉ Meta_read_only_fields) fields) →
  inst ∈ Recipe_objects st →
  NoDup (Recipe.id <$> Recipe_objects st) →
  (perform_update partial fields u inst data st).2 = st ∧
  (partial = true → (perform_update partial fields u inst data st).1 = Ok inst) ∧
  (partial = false → (∃ f, f ∈ required_columns ∧ f ∈ fields) →
     (perform_update partial fields u inst data st).1 = Raise ValidationError).
Proof.
  intros Hkeys Hin Hnd.
  assert (Hpatch : perform_update true fields u inst data st = (Ok inst, st)).
  { unfold perform_update, is_valid, to_internal_value.
    assert (Hempty : filter (λ kv : string * value,
                       kv.1 ∈ filter (λ f, f ∉ Meta_read_only_fields) fields) data = ∅).
    { apply map_empty. intros f. apply map_lookup_filter_None. right.
      intros v Hv. simpl. by apply Hkeys. }
    rewrite Hempty. rewrite decide_True by apply map_Forall_empty.
    rewrite update_unfold. rewrite !lookup_empty. simpl.
    unfold relink. simpl. unfold bind at 1, ret at 1. unfold bind at 1, ret at 1.
    rewrite !delete_empty. unfold set_attrs. rewrite map_fold_empty.
    erewrite bind_run_Ok; [done|].
    apply save_stored; [done|]. intros r Hr Hid. by eapply NoDup_fmap_eq. }
  destruct partial.
  - rewrite Hpatch. by split_and!.
  - unfold perform_update, is_valid.
    destruct (decide (Forall (λ f, f ∈ fields → is_Some (data !! f)) required_columns))
      as [Hall|Hnot].
    + change (perform_update true fields u inst data st) with
        (match to_internal_value fields data with
         | Ok validated => update u inst validated
         | Raise e => raise e
         end st) in Hpatch.
      rewrite Hpatch. split_and!; [done|done|].
      intros _ (f & Hreq & Hf). exfalso.
      pose proof (proj1 (Forall_forall _ _) Hall f Hreq Hf) as Hsome.
      apply (Hkeys f Hsome). apply list_elem_of_filter. split; [|done].
      intros Hro. revert Hreq Hro. unfold required_columns, Meta_read_only_fields.
      rewrite list_elem_of_singleton. intros Hreq ->.
      revert Hreq. apply (bool_decide_unpack _). vm_compute. exact I.
    + by split_and!.
Qed.

Lemma payload_without_writable_field_is_noop_witness :
  perform_update true Detail_Meta_fields 1 sample_recipe
    (<["id" := VInt 99]> (<["user" := VInt 2]> ∅)) sample_store
    = (Ok sample_recipe, sample_store) ∧
  perform_update false Detail_Meta_fields 1 sample_recipe
    (<["id" := VInt 99]> (<["user" := VInt 2]> ∅)) sample_store
    = (Raise ValidationError, sample_store).
Proof.
  assert (Hkeys : ∀ f, is_Some ((<["id" := VInt 99]> (<["user" := VInt 2]> ∅) : gmap string value) !! f) →
            f ∉ filter (λ f, f ∉ Meta_read_only_fields) Detail_Meta_fields).
  { intros f [v Hf]. apply lookup_insert_Some in Hf as [[<- _]|[_ Hf]].
    - apply (bool_decide_unpack _). vm_compute. exact I.
    - apply lookup_insert_Some in Hf as [[<- _]|[_ Hf]]; [|by rewrite lookup_empty in Hf].
      apply (bool_decide_unpack _). vm_compute. exact I. }
  split.
  - destruct (payload_without_writable_field_is_noop true Detail_Meta_fields 1
                sample_recipe _ sample_store Hkeys) as (Hst & Hok & _).
    + apply list_elem_of_here.
    + apply sample_store_wf.
    + rewrite (surjective_pairing (perform_update _ _ _ _ _ _)).
      by rewrite Hst, Hok.
  - destruct (payload_without_writable_field_is_noop false Detail_Meta_fields 1
                sample_recipe _ sample_store Hkeys) as (Hst & _ & Hraise).
    + apply list_elem_of_here.
    + apply sample_store_wf.
    + rewrite (surjective_pairing (perform_update _ _ _ _ _ _)).
      rewrite Hst, Hraise; [done|done|].
      exists "title". split; apply (bool_decide_unpack _); vm_compute; exact I.
Defined.

(** ** The [create_recipe] helper of the test modules *)





(** ** The loop alone *)

Lemma loop_body_local k u inst n st sc :
  table k sc = table k st →
  loop_body k u inst n sc =
    ((loop_body k u inst n st).1,
     set_table k (table k (loop_body k u inst n st).2) sc).
Proof.
  intros Hsc. unfold loop_body, bind, get_or_create, add. rewrite Hsc.
  destruct (matching u n (rows (table k st))) as [|r [|r' l]]; cbn [fst snd].
  - by rewrite !table_set_table_eq, !set_table_set_table.
  - by rewrite table_set_table_eq, Hsc.
  - by rewrite <- Hsc, set_table_table.
Qed.

Lemma for_each_loop_local k u inst l st sc :
  table k sc = table k st →
  for_each l (loop_body k u inst) sc =
    ((for_each l (loop_body k u inst) st).1,
     set_table k (table k (for_each l (loop_body k u inst) st).2) sc).
Proof.
  revert st sc. induction l as [|n l IH]; intros st sc Hsc; simpl.
  - unfold ret. simpl. by rewrite <- Hsc, set_table_table.
  - unfold bind. rewrite (loop_body_local k u inst n st sc Hsc).
    destruct (loop_body k u inst n st) as [[[]|e] st1]; simpl.
    + rewrite (IH st1 (set_table k (table k st1) sc)) by by rewrite table_set_table_eq.
      by rewrite set_table_set_table.
    + done.
Qed.

(** X12.  [_get_or_create_tags] works on the Tag table alone and
    [_get_or_create_ingredients] on the Ingredient table alone: run on two
    stores with the same table of its kind, the loop has the same outcome
    and leaves the same table of its kind, and in each store it leaves the
    other table, the recipes and the recipe sequence as they were. *)
Theorem get_or_create_related_local k u inst v st sc :
  table k sc = table k st →
  (get_or_create_related k u inst v sc).1 = (get_or_create_related k u inst v st).1 ∧
  table k (get_or_create_related k u inst v sc).2
    = table k (get_or_create_related k u inst v st).2 ∧
  (∀ k', k' ≠ k →
     table k' (get_or_create_related k u inst v sc).2 = table k' sc) ∧
  Recipe_objects (get_or_create_related k u inst v sc).2 = Recipe_objects sc ∧
  next_recipe_id (get_or_create_related k u inst v sc).2 = next_recipe_id sc.
Proof.
  intros Hsc.
  assert (H : get_or_create_related k u inst v sc =
            ((get_or_create_related k u inst v st).1,
             set_table k (table k (get_or_create_related k u inst v st).2) sc)).
  { destruct v as [|s| | | |names];
      [| | | | |exact (for_each_loop_local k u inst names st sc Hsc)];
      try (unfold get_or_create_related, raise; simpl; by rewrite <- Hsc, set_table_table).
    unfold get_or_create_related. simpl.
    destruct s; unfold ret, raise; simpl; by rewrite <- Hsc, set_table_table. }
  rewrite H. simpl. split_and!.
  - done.
  - by rewrite table_set_table_eq.
  - intros k' Hk'. by rewrite table_set_table_ne.
  - by rewrite Recipe_objects_set_table.
  - by rewrite next_recipe_id_set_table.
Qed.

Lemma get_or_create_related_local_witness :
  table KTag (get_or_create_related KTag 1 sample_recipe (VSpecs ["Dinner"])
                (clear KIngredient 1 sample_store).2).2
    = table KTag (get_or_create_related KTag 1 sample_recipe (VSpecs ["Dinner"])
                    sample_store).2 ∧
  table KIngredient (get_or_create_related KTag 1 sample_recipe (VSpecs ["Dinner"])
                       sample_store).2
    = table KIngredient sample_store.
Proof.
  split.
  - by apply (get_or_create_related_local KTag 1 sample_recipe (VSpecs ["Dinner"])
                sample_store (clear KIngredient 1 sample_store).2).
  - by apply (get_or_create_related_local KTag 1 sample_recipe (VSpecs ["Dinner"])
                sample_store sample_store).
Defined.
